(** * Enigma: the keyboard front end and the cipher engine it calls

    The repository's JavaScript front end ([App], [EnigmaMachine], [Notepad])
    keeps two pieces of text, the typed plaintext and the displayed
    ciphertext, and on letter keystrokes asks a back-end command
    [enigma_process_string] for the ciphertext of the whole text typed so far.

    The front end is embedded from its source.  The back-end command is not
    among the JavaScript sources; it is modelled from the specification in
    [Module Enigma]. *)

From Stdlib Require Import ZArith List Bool Ascii String Lia.
Import ListNotations.

Local Open Scope string_scope.
Local Open Scope Z_scope.

(** ** JavaScript string primitives used by the front end *)

Module Js.

(** [c.charCodeAt(0)]; the texts handled here are ASCII. *)
Definition code (c : ascii) : Z := Z.of_N (N_of_ascii c).
(** [String.fromCharCode(n)] *)
Definition chr (n : Z) : ascii := ascii_of_N (Z.to_N n).

(** The character classes [A-Z] and [a-z]. *)
Definition isUpper (c : ascii) : bool := (65 <=? code c) && (code c <=? 90).
Definition isLower (c : ascii) : bool := (97 <=? code c) && (code c <=? 122).

(** Case mapping of one character: only ASCII letters move. *)
Definition lowerChar (c : ascii) : ascii :=
  if isUpper c then chr (code c + 32) else c.
Definition upperChar (c : ascii) : ascii :=
  if isLower c then chr (code c - 32) else c.

Fixpoint mapString (f : ascii -> ascii) (s : string) : string :=
  match s with
  | EmptyString => EmptyString
  | String c rest => String (f c) (mapString f rest)
  end.

(** [s.toLowerCase()] and [s.toUpperCase()] on ASCII text. *)
Definition toLowerCase (s : string) : string := mapString lowerChar s.
Definition toUpperCase (s : string) : string := mapString upperChar s.

(** [/^[A-Za-z]$/.test(key)]: exactly one character, an ASCII letter. *)
Definition testLetter (key : string) : bool :=
  match key with
  | String c EmptyString => isUpper c || isLower c
  | _ => false
  end.

End Js.

(** ** The request payload passed to the back end *)

Module Payload.

Record RotorInit := mkRotorInit {
  name : string;
  position : string;
  ring : string
}.

Record Config := mkConfig {
  rotors : RotorInit * RotorInit * RotorInit;
  reflector : string;
  plugboard_pairs : string
}.

(** [invoke(command, { config, text })] *)
Record Request := mkRequest {
  command : string;
  config : Config;
  text : string
}.

(** How the promise returned by [invoke] settles. *)
Inductive Settlement :=
| Fulfilled (encrypted : string)
| Rejected.

End Payload.

(** ** The front end: [App] and the controls of [EnigmaMachine] *)

Module App.
Import Payload.

(** The two [useState] cells of [App], together with the promises of
    [invoke] that have not settled yet and the trace of every call issued. *)
Record State := mkState {
  originalText : string;
  encryptedText : string;
  pending : list Request;
  invoked : list Request
}.

(** [useState('')] twice, nothing in flight. *)
Definition initial : State := mkState "" "" [] [].

(** [getDefaultConfig()]; the three-element [rotors] array is a triple. *)
Definition getDefaultConfig : Config :=
  {| rotors := (mkRotorInit "I" "A" "A",
                mkRotorInit "II" "A" "A",
                mkRotorInit "III" "A" "A");
     reflector := "B";
     plugboard_pairs := "" |}.

(** The call that [processEncryption(text)] issues. *)
Definition processEncryption_request (text : string) : Request :=
  {| command := "enigma_process_string";
     config := getDefaultConfig;
     text := Js.toUpperCase text |}.

(** What [processEncryption] does once its promise settles: the [try]
    branch replaces the display, the [catch] branch appends ["?"]. *)
Definition processEncryption_settle (r : Settlement) (s : State) : State :=
  match r with
  | Fulfilled encrypted =>
      mkState (originalText s) encrypted (pending s) (invoked s)
  | Rejected =>
      mkState (originalText s) (encryptedText s ++ "?") (pending s) (invoked s)
  end.

(** [handleKeyPress(key)].  The space key updates both cells and returns;
    a key failing the letter test returns at once; otherwise the updater of
    [setOriginalText] appends the lower-cased key and calls
    [processEncryption(updated)], whose promise joins those in flight. *)
Definition handleKeyPress (key : string) (s : State) : State :=
  if String.eqb key " " then
    mkState (originalText s ++ " ") (encryptedText s ++ " ")
            (pending s) (invoked s)
  else if negb (Js.testLetter key) then s
  else
    let updated := originalText s ++ Js.toLowerCase key in
    let call := processEncryption_request updated in
    mkState updated (encryptedText s)
            (pending s ++ [call]) (invoked s ++ [call]).

(** [handleClear()]: both cells emptied; promises in flight stay so. *)
Definition handleClear (s : State) : State :=
  mkState "" "" (pending s) (invoked s).

(** The [keydown] listener: [handleKeyPress(event.key)]. *)
Definition handlePhysicalKeyPress (eventKey : string) (s : State) : State :=
  handleKeyPress eventKey s.

(** The key caps of [EnigmaMachine]. *)
Definition keyboardRows : list (list string) :=
  [ ["Q"; "W"; "E"; "R"; "T"; "Y"; "U"; "I"; "O"; "P"];
    ["A"; "S"; "D"; "F"; "G"; "H"; "J"; "K"; "L"];
    ["Z"; "X"; "C"; "V"; "B"; "N"; "M"] ].

(** Every clickable control the two components render. *)
Inductive Control :=
| KeyButton (row col : nat)
| SpaceButton
| MachineClearButton
| NotepadClearButton.

(** [<EnigmaMachine onKeyPress={handleKeyPress} onClear={handleClear} />]
    and [<Notepad onClear={handleClear} />] *)
Definition onKeyPress (key : string) (s : State) : State := handleKeyPress key s.
Definition onClear (s : State) : State := handleClear s.

(** The [onClick] of each control. *)
Definition onClick (c : Control) (s : State) : State :=
  match c with
  | KeyButton row col =>
      match nth_error (nth row keyboardRows []) col with
      | Some key => onKeyPress key s
      | None => s
      end
  | SpaceButton => onKeyPress " " s
  | MachineClearButton => onClear s
  | NotepadClearButton => onClear s
  end.

(** The promises in flight without the [i]-th. *)
Fixpoint removeAt {A} (i : nat) (l : list A) : list A :=
  match l, i with
  | [], _ => []
  | _ :: t, O => t
  | h :: t, S j => h :: removeAt j t
  end.

(** What can happen to the page: a click, a key going down, a promise
    settling. *)
Inductive Event :=
| Click (c : Control)
| KeyDown (eventKey : string)
| Settle (i : nat).

Section WithBackEnd.
(** The back end behind [invoke]. *)
Variable invoke : Request -> Settlement.

(** The [i]-th promise in flight settles. *)
Definition settle (i : nat) (s : State) : State :=
  match nth_error (pending s) i with
  | Some call =>
      processEncryption_settle (invoke call)
        (mkState (originalText s) (encryptedText s)
                 (removeAt i (pending s)) (invoked s))
  | None => s
  end.

(** One event of the running page. *)
Definition dispatch (e : Event) (s : State) : State :=
  match e with
  | Click c => onClick c s
  | KeyDown k => handlePhysicalKeyPress k s
  | Settle i => settle i s
  end.

(** A sequence of events, in order. *)
Definition run (es : list Event) (s : State) : State :=
  fold_left (fun acc e => dispatch e acc) es s.

(** A keystroke whose call, if any, settles before the next event. *)
Definition keystroke (key : string) (s : State) : State :=
  let s' := handleKeyPress key s in
  settle (List.length (pending s)) s'.
End WithBackEnd.

End App.

(** ** The two components the page renders *)

Module Notepad.

(** [text.split('\n')], with the line being read in [cur]. *)
Fixpoint splitFrom (text cur : string) : list string :=
  match text with
  | EmptyString => [cur]
  | String c rest =>
      if Js.code c =? 10 then cur :: splitFrom rest EmptyString
      else splitFrom rest (cur ++ String c EmptyString)
  end.

(** [const lines = text.split('\n')] *)
Definition split (text : string) : list string := splitFrom text EmptyString.

(** The no-break space ['\u00A0'] that stands in for an empty line. *)
Definition nbsp : string := String (Js.chr 160) EmptyString.

(** [line || '\u00A0'] *)
Definition lineContent (line : string) : string :=
  match line with
  | EmptyString => nbsp
  | _ => line
  end.

(** What the sheet shows: the prompt over a number of blank ruled rows, or
    one ruled row per line of text. *)
Inductive Sheet :=
| Prompt (blankRows : nat)
| Lines (rows : list string).

(** The body of [Notepad]: [text ? lines.map(...) : prompt and 15 rows]. *)
Definition render (text : string) : Sheet :=
  let lines := split text in
  match text with
  | EmptyString => Prompt 15
  | _ => Lines (map lineContent lines)
  end.

End Notepad.

Module EnigmaMachine.

(** What the lamp panel shows: the waiting notice or the ciphertext. *)
Inductive Panel :=
| Waiting
| Ciphertext (shown : string).

(** [encryptedText || <Text>Aguardando entrada...</Text>] *)
Definition render (encryptedText : string) : Panel :=
  match encryptedText with
  | EmptyString => Waiting
  | _ => Ciphertext encryptedText
  end.

End EnigmaMachine.

(** ** The cipher engine behind [enigma_process_string] *)

Module Enigma.

(** Modelled from the spec: the error kinds of the engine (section 7); the
    engine's sources are not among the JavaScript files. *)
Inductive Error :=
| InvalidPermutation
| UnknownRotor
| UnknownReflector
| DuplicateRotor
| InvalidSetting
| InvalidPlugboard.

(** Modelled from the spec: the pure function boundary, ciphertext or typed
    error (sections 6 and 7). *)
Inductive Result (A : Type) :=
| Ok (a : A)
| Err (e : Error).
Arguments Ok {A} a.
Arguments Err {A} e.

(** Modelled from the spec: errors surface synchronously; the first failing
    step decides the result (section 7). *)
Definition bind {A B} (r : Result A) (k : A -> Result B) : Result B :=
  match r with
  | Ok a => k a
  | Err e => Err e
  end.

Notation "x <- r ;; k" := (bind r (fun x => k))
  (at level 61, r at next level, right associativity).

(** Modelled from the spec: a validation check failing with a named error
    (section 7). *)
Definition guard (b : bool) (e : Error) : Result unit :=
  if b then Ok tt else Err e.

(** Modelled from the spec: a Letter is an integer in [0,25] standing for
    A to Z (section 3). *)
Abbreviation Letter := Z.

(** Modelled from the spec: membership in the Letter domain [0,25]
    (section 3). *)
Definition inRange (x : Z) : bool := (0 <=? x) && (x <? 26).

(** Modelled from the spec: the 26 Letters in order (section 3). *)
Definition alphabet : list Letter := map Z.of_nat (seq 0 26).

(** Modelled from the spec: array lookup of a table at a Letter
    (section 4.1). *)
Definition at_ (l : list Letter) (x : Z) : Letter := nth (Z.to_nat x) l 0.

(** Modelled from the spec: the derived inverse, the index at which a target
    occurs (section 3). *)
Fixpoint index_of (y : Z) (l : list Z) : Z :=
  match l with
  | [] => 0
  | h :: t => if h =? y then 0 else 1 + index_of y t
  end.

(** Modelled from the spec: the duplicate-target test of Permutation
    construction (section 4.1). *)
Fixpoint has_dup (l : list Z) : bool :=
  match l with
  | [] => false
  | h :: t => existsb (Z.eqb h) t || has_dup t
  end.

(** Modelled from the spec: Permutation (sections 3 and 4.1), a length-26
    bijection with its derived inverse; construction fails with
    [InvalidPermutation] on a wrong length, an out-of-range entry or a
    duplicate. *)
Record Permutation := mkPerm {
  forward : list Letter;
  inverse : list Letter
}.

(** Modelled from the spec: a length-26 bijection has 26 in-range entries
    without duplicates (section 4.1). *)
Definition isBijection (targets : list Z) : bool :=
  (List.length targets =? 26)%nat && forallb inRange targets
    && negb (has_dup targets).

(** Modelled from the spec: Permutation construction from a target array
    (section 4.1). *)
Definition mkPermutation (targets : list Z) : Result Permutation :=
  _ <- guard (isBijection targets) InvalidPermutation ;;
  Ok {| forward := targets;
        inverse := map (fun y => index_of y targets) alphabet |}.

(** Modelled from the spec: Permutation.apply (section 4.1). *)
Definition apply (p : Permutation) (x : Letter) : Letter := at_ (forward p) x.
(** Modelled from the spec: Permutation.applyInverse (section 4.1). *)
Definition applyInverse (p : Permutation) (x : Letter) : Letter :=
  at_ (inverse p) x.

(** Modelled from the spec: the self-inverse permutations of plugboard and
    reflector (sections 3, 4.3, 4.4 and 9), one table used in both signal
    directions. *)
Record InvolutivePermutation := mkInvolutive { table : list Letter }.

(** Modelled from the spec: Plugboard (section 3). *)
Definition Plugboard := InvolutivePermutation.
(** Modelled from the spec: Reflector (section 3). *)
Definition Reflector := InvolutivePermutation.

(** Modelled from the spec: Plugboard.swap (section 4.3). *)
Definition swap (p : Plugboard) (x : Letter) : Letter := at_ (table p) x.
(** Modelled from the spec: Reflector.reflect (section 4.4). *)
Definition reflect (r : Reflector) (x : Letter) : Letter := at_ (table r) x.

(** Modelled from the spec: the involution invariant of a reflector table
    (section 3). *)
Definition isInvolutive (targets : list Z) : bool :=
  forallb (fun x => at_ targets (at_ targets x) =? x) alphabet.

(** Modelled from the spec: no letter of a reflector maps to itself
    (section 3). *)
Definition isFixedPointFree (targets : list Z) : bool :=
  forallb (fun x => negb (at_ targets x =? x)) alphabet.

(** Modelled from the spec: Reflector construction enforcing the historical
    invariant on supplied data (section 3). *)
Definition mkReflector (targets : list Z) : Result Reflector :=
  _ <- guard (isBijection targets && isInvolutive targets
                && isFixedPointFree targets) InvalidPermutation ;;
  Ok {| table := targets |}.

(** Modelled from the spec: the Letter of an upper-case character A to Z
    (sections 3 and 6). *)
Definition letterOfUpper (c : ascii) : option Letter :=
  if Js.isUpper c then Some (Js.code c - 65) else None.

(** Modelled from the spec: encryptString's reading of a character, a letter
    of either case as its Letter, anything else as passthrough
    (section 4.7). *)
Definition classify (c : ascii) : option Letter :=
  if Js.isUpper c then Some (Js.code c - 65)
  else if Js.isLower c then Some (Js.code c - 97)
  else None.

(** Modelled from the spec: the upper-case character of a Letter
    (section 3). *)
Definition charOfLetter (x : Letter) : ascii := Js.chr (x + 65).

(** Modelled from the spec: a wiring written as 26 upper-case characters,
    as an array of Letters (section 3). *)
Fixpoint lettersOf (s : string) : list Z :=
  match s with
  | EmptyString => []
  | String c rest => (Js.code c - 65) :: lettersOf rest
  end.

(** Modelled from the spec: RotorSpec and the static catalogs (sections 3
    and 4.4).  The spec names the rotors and reflectors; the tables are the
    published historical wirings and turnover notches. *)
Record RotorSpec := mkRotorSpec {
  spec_name : string;
  wiring : Permutation;
  notches : list Letter
}.

(** Modelled from the spec: the static rotor catalog, name, wiring and notch
    (section 3); the tables are the published historical ones. *)
Definition rotorCatalog : list (string * (string * string)) :=
  [ ("I",   ("EKMFLGDQVZNTOWYHXUSPAIBRCJ", "Q"));
    ("II",  ("AJDKSIRUXBLHWTMCQGZNPYFVOE", "E"));
    ("III", ("BDFHJLCPRTXVZNYEIWGAKMUSQO", "V"));
    ("IV",  ("ESOVPZJAYQUIRHXLNFTGKDCMWB", "J"));
    ("V",   ("VZBRGITYUPSDNHLXAWMJQOFECK", "Z")) ].

(** Modelled from the spec: the static reflector catalog A, B, C
    (section 4.4); the tables are the published historical ones. *)
Definition reflectorCatalog : list (string * string) :=
  [ ("A", "EJMZALYXVBWFCRQUONTSPIKHGD");
    ("B", "YRUHQSLDPXNGOKMIEBFZCWVJAT");
    ("C", "FVPJIAOYEDRZXWGCTKUQSBNMHL") ].

(** Modelled from the spec: resolving a name against a static catalog
    (section 4.8). *)
Fixpoint assoc {A} (key : string) (l : list (string * A)) : option A :=
  match l with
  | [] => None
  | (k, v) :: rest => if String.eqb k key then Some v else assoc key rest
  end.

(** Modelled from the spec: rotor names resolve against the RotorSpec catalog
    or fail with UnknownRotor (section 4.8). *)
Definition lookupRotor (name : string) : Result RotorSpec :=
  match assoc name rotorCatalog with
  | None => Err UnknownRotor
  | Some (w, n) =>
      p <- mkPermutation (lettersOf w) ;;
      Ok {| spec_name := name; wiring := p; notches := lettersOf n |}
  end.

(** Modelled from the spec: a reflector is selected by identifier or fails
    with UnknownReflector (section 4.4). *)
Definition lookupReflector (id : string) : Result Reflector :=
  match assoc id reflectorCatalog with
  | None => Err UnknownReflector
  | Some w => mkReflector (lettersOf w)
  end.

(** Modelled from the spec: RotorState and the Rotor contract (sections 3
    and 4.2). *)
Record RotorState := mkRotorState {
  spec : RotorSpec;
  position : Letter;
  ring : Letter
}.

(** Modelled from the spec: Rotor.forward(x, position, ring)
    (section 4.2). *)
Definition rotor_forward (w : Permutation) (x position ring : Z) : Letter :=
  let inner := (x + position - ring) mod 26 in
  let mapped := apply w inner in
  (mapped - position + ring) mod 26.

(** Modelled from the spec: Rotor.backward(x, position, ring)
    (section 4.2). *)
Definition rotor_backward (w : Permutation) (x position ring : Z) : Letter :=
  let inner := (x + position - ring) mod 26 in
  let mapped := applyInverse w inner in
  (mapped - position + ring) mod 26.

(** Modelled from the spec: Rotor.isAtNotch(position) (section 4.2). *)
Definition isAtNotch (s : RotorSpec) (position : Letter) : bool :=
  existsb (Z.eqb position) (notches s).

(** Modelled from the spec: Rotor.step(position) (section 4.2). *)
Definition step (position : Letter) : Letter := (position + 1) mod 26.

(** Modelled from the spec: the forward transform of a mounted rotor at its
    current position and ring (section 4.6, step 3). *)
Definition forward_ (r : RotorState) (x : Letter) : Letter :=
  rotor_forward (wiring (spec r)) x (position r) (ring r).
(** Modelled from the spec: the backward transform of a mounted rotor
    (section 4.6, step 5). *)
Definition backward_ (r : RotorState) (x : Letter) : Letter :=
  rotor_backward (wiring (spec r)) x (position r) (ring r).
(** Modelled from the spec: a mounted rotor is at its notch
    (section 4.5). *)
Definition atNotch (r : RotorState) : bool := isAtNotch (spec r) (position r).
(** Modelled from the spec: a mounted rotor after one step; only the
    position changes (sections 3 and 4.2). *)
Definition stepped (r : RotorState) : RotorState :=
  {| spec := spec r; position := step (position r); ring := ring r |}.


(** Modelled from the spec: Plugboard construction (section 4.3) from a
    whitespace- or comma-delimited sequence of two-letter tokens
    (section 6). *)
Definition isDelimiter (c : ascii) : bool :=
  let n := Js.code c in
  (n =? 32) || (n =? 9) || (n =? 10) || (n =? 13) || (n =? 44).

(** Modelled from the spec: closing the current token of the plugboard
    string (section 6). *)
Definition flush (cur : string) (acc : list string) : list string :=
  match cur with
  | EmptyString => acc
  | _ => cur :: acc
  end.

(** Modelled from the spec: splitting the plugboard string at delimiters
    (section 6). *)
Fixpoint tokensFrom (s : string) (cur : string) : list string :=
  match s with
  | EmptyString => flush cur []
  | String c rest =>
      if isDelimiter c then flush cur (tokensFrom rest EmptyString)
      else tokensFrom rest (cur ++ String c EmptyString)
  end.

(** Modelled from the spec: the tokens of a plugboard string, possibly none
    (section 6). *)
Definition tokens (s : string) : list string := tokensFrom s EmptyString.

(** Modelled from the spec: a token is exactly two distinct letters or the
    construction fails with InvalidPlugboard (section 4.3). *)
Definition parsePair (token : string) : Result (Letter * Letter) :=
  match token with
  | String a (String b EmptyString) =>
      match letterOfUpper a, letterOfUpper b with
      | Some x, Some y =>
          _ <- guard (negb (x =? y)) InvalidPlugboard ;; Ok (x, y)
      | _, _ => Err InvalidPlugboard
      end
  | _ => Err InvalidPlugboard
  end.

(** Modelled from the spec: every token of the plugboard string is parsed
    (section 4.3). *)
Fixpoint parsePairs (ts : list string) : Result (list (Letter * Letter)) :=
  match ts with
  | [] => Ok []
  | t :: rest =>
      p <- parsePair t ;;
      ps <- parsePairs rest ;;
      Ok (p :: ps)
  end.

(** Modelled from the spec: the letters used by the pairs, for the test that
    no letter appears twice (section 4.3). *)
Fixpoint pairLetters (ps : list (Letter * Letter)) : list Letter :=
  match ps with
  | [] => []
  | (a, b) :: rest => a :: b :: pairLetters rest
  end.

(** Modelled from the spec: paired letters are exchanged, unpaired letters
    map to themselves (section 3). *)
Fixpoint swapPairs (ps : list (Letter * Letter)) (x : Letter) : Letter :=
  match ps with
  | [] => x
  | (a, b) :: rest =>
      if x =? a then b else if x =? b then a else swapPairs rest x
  end.

(** Modelled from the spec: Plugboard construction, at most 13 pairs, no
    letter twice (section 4.3). *)
Definition mkPlugboard (pairing : string) : Result Plugboard :=
  ps <- parsePairs (tokens pairing) ;;
  _ <- guard (negb (has_dup (pairLetters ps))) InvalidPlugboard ;;
  _ <- guard (List.length ps <=? 13)%nat InvalidPlugboard ;;
  Ok {| table := map (swapPairs ps) alphabet |}.

(** Modelled from the spec: a RotorState initializer, name, starting position
    and ring (section 3). *)
Record RotorSetting := mkRotorSetting {
  rotor_name : string;
  start_position : Letter;
  ring_setting : Letter
}.

(** Modelled from the spec: MachineConfig, three rotor initializers, a
    reflector identifier and a plugboard pairing string (section 3). *)
Record MachineConfig := mkMachineConfig {
  cfg_left : RotorSetting;
  cfg_middle : RotorSetting;
  cfg_right : RotorSetting;
  cfg_reflector : string;
  cfg_plugboard : string
}.

(** Modelled from the spec: Machine, three RotorStates, a Reflector and a
    Plugboard (section 3). *)
Record Machine := mkMachine {
  left : RotorState;
  middle : RotorState;
  right : RotorState;
  reflector : Reflector;
  plugboard : Plugboard
}.

(** Modelled from the spec: a position or ring value is a single letter A to
    Z or validation fails with InvalidSetting (section 4.8). *)
Definition parseSetting (s : string) : Result Letter :=
  match s with
  | String c EmptyString =>
      match letterOfUpper c with
      | Some x => Ok x
      | None => Err InvalidSetting
      end
  | _ => Err InvalidSetting
  end.

(** Modelled from the spec: one raw rotor entry, name resolved, position and
    ring parsed (section 4.8). *)
Definition validateRotor (r : Payload.RotorInit) : Result RotorSetting :=
  _ <- lookupRotor (Payload.name r) ;;
  p <- parseSetting (Payload.position r) ;;
  g <- parseSetting (Payload.ring r) ;;
  Ok {| rotor_name := Payload.name r; start_position := p; ring_setting := g |}.

(** Modelled from the spec: ConfigValidator, producing a MachineConfig or one
    of the named errors; rotor names pairwise distinct (section 4.8). *)
Definition ConfigValidator (raw : Payload.Config) : Result MachineConfig :=
  let '(r0, r1, r2) := Payload.rotors raw in
  l <- validateRotor r0 ;;
  m <- validateRotor r1 ;;
  r <- validateRotor r2 ;;
  _ <- guard (negb (String.eqb (rotor_name l) (rotor_name m)
                    || String.eqb (rotor_name l) (rotor_name r)
                    || String.eqb (rotor_name m) (rotor_name r)))
             DuplicateRotor ;;
  _ <- lookupReflector (Payload.reflector raw) ;;
  _ <- mkPlugboard (Payload.plugboard_pairs raw) ;;
  Ok {| cfg_left := l; cfg_middle := m; cfg_right := r;
        cfg_reflector := Payload.reflector raw;
        cfg_plugboard := Payload.plugboard_pairs raw |}.

(** Modelled from the spec: a RotorState created for the Machine from its
    initializer; the Machine owns fresh copies (section 3). *)
Definition mountRotor (s : RotorSetting) : Result RotorState :=
  sp <- lookupRotor (rotor_name s) ;;
  Ok {| spec := sp; position := start_position s; ring := ring_setting s |}.

(** Modelled from the spec: Machine construction from a MachineConfig
    (sections 2 and 3). *)
Definition buildMachine (c : MachineConfig) : Result Machine :=
  l <- mountRotor (cfg_left c) ;;
  m <- mountRotor (cfg_middle c) ;;
  r <- mountRotor (cfg_right c) ;;
  u <- lookupReflector (cfg_reflector c) ;;
  p <- mkPlugboard (cfg_plugboard c) ;;
  Ok {| left := l; middle := m; right := r; reflector := u; plugboard := p |}.

(** Modelled from the spec: the Machine steps its left rotor
    (section 4.5). *)
Definition stepLeft (m : Machine) : Machine :=
  mkMachine (stepped (left m)) (middle m) (right m) (reflector m) (plugboard m).
(** Modelled from the spec: the Machine steps its middle rotor
    (section 4.5). *)
Definition stepMiddle (m : Machine) : Machine :=
  mkMachine (left m) (stepped (middle m)) (right m) (reflector m) (plugboard m).
(** Modelled from the spec: the Machine steps its right rotor
    (section 4.5). *)
Definition stepRight (m : Machine) : Machine :=
  mkMachine (left m) (middle m) (stepped (right m)) (reflector m) (plugboard m).

(** Modelled from the spec: the stepping transition, rules 1 to 3 in order,
    both notch tests on the positions before any step of the round
    (section 4.5). *)
Definition stepping (m : Machine) : Machine :=
  let middleAtNotch := atNotch (middle m) in
  let rightAtNotch := atNotch (right m) in
  let m1 :=
    if middleAtNotch then stepLeft (stepMiddle m)
    else if rightAtNotch then stepMiddle m
    else m in
  stepRight m1.

(** Modelled from the spec: the signal path of one letter (section 4.6),
    after the stepping transition. *)
Definition signalPath (m : Machine) (x : Letter) : Letter :=
  let x := swap (plugboard m) x in
  let x := forward_ (right m) x in
  let x := forward_ (middle m) x in
  let x := forward_ (left m) x in
  let x := reflect (reflector m) x in
  let x := backward_ (left m) x in
  let x := backward_ (middle m) x in
  let x := backward_ (right m) x in
  swap (plugboard m) x.

(** Modelled from the spec: Machine.encryptLetter, the stepping transition
    and then the signal path (section 4.6). *)
Definition encryptLetter (m : Machine) (x : Letter) : Letter * Machine :=
  let m' := stepping m in
  (signalPath m' x, m').

(** Modelled from the spec: encryptString on a Machine (section 4.7),
    returning the ciphertext and the Machine the text leaves behind. *)
Fixpoint encryptFrom (m : Machine) (text : string) : string * Machine :=
  match text with
  | EmptyString => (EmptyString, m)
  | String c rest =>
      match classify c with
      | Some x =>
          let (y, m1) := encryptLetter m x in
          let (out, m2) := encryptFrom m1 rest in
          (String (charOfLetter y) out, m2)
      | None =>
          let (out, m1) := encryptFrom m rest in
          (String c out, m1)
      end
  end.

(** Modelled from the spec: one engine call (sections 5 and 6): a fresh
    Machine from the configuration, the ciphertext out, the Machine
    discarded. *)
Definition encryptString (c : MachineConfig) (text : string) : Result string :=
  m <- buildMachine c ;;
  Ok (fst (encryptFrom m text)).

(** Modelled from the spec: the request boundary, validation first and then
    one encryptString call (sections 2 and 6). *)
Definition enigma_process_string (raw : Payload.Config) (text : string)
  : Result string :=
  c <- ConfigValidator raw ;;
  encryptString c text.

(** Modelled from the spec: the state of the stepping protocol, the rotor
    positions left, middle, right (section 4.5). *)
Definition positions (m : Machine) : Letter * Letter * Letter :=
  (position (left m), position (middle m), position (right m)).

End Enigma.

(** Modelled from the spec: the back-end command the front end reaches
    through [invoke]; a typed failure of the engine rejects the promise
    (section 6). *)
Definition backEnd (call : Payload.Request) : Payload.Settlement :=
  if String.eqb (Payload.command call) "enigma_process_string" then
    match Enigma.enigma_process_string (Payload.config call) (Payload.text call) with
    | Enigma.Ok encrypted => Payload.Fulfilled encrypted
    | Enigma.Err _ => Payload.Rejected
    end
  else Payload.Rejected.

(** ** Predicates used in the statements *)

(** Modelled from the spec: rules 1 and 2 of the stepping protocol as a
    transition relation, each guarded by the notch state the round starts
    with: middle at its notch turns middle and left; otherwise right at its
    notch turns the middle; otherwise nothing turns yet (section 4.5). *)
Inductive turnover : Enigma.Machine -> Enigma.Machine -> Prop :=
| turnover_double m :
    Enigma.atNotch (Enigma.middle m) = true ->
    turnover m (Enigma.stepLeft (Enigma.stepMiddle m))
| turnover_middle m :
    Enigma.atNotch (Enigma.middle m) = false ->
    Enigma.atNotch (Enigma.right m) = true ->
    turnover m (Enigma.stepMiddle m)
| turnover_none m :
    Enigma.atNotch (Enigma.middle m) = false ->
    Enigma.atNotch (Enigma.right m) = false ->
    turnover m m.

(** Modelled from the spec: one round of the stepping protocol, rules 1 and 2
    and then rule 3, the right rotor always steps (section 4.5). *)
Inductive round : Enigma.Machine -> Enigma.Machine -> Prop :=
| round_right m m1 : turnover m m1 -> round m (Enigma.stepRight m1).

(** Modelled from the spec: a Machine working through a text, as a relation
    between the Machine before, the text, the ciphertext and the Machine
    after: a letter is preceded by one round and then sent down the signal
    path, any other character is copied and moves nothing
    (sections 4.6 and 4.7). *)
Inductive enciphers :
  Enigma.Machine -> string -> string -> Enigma.Machine -> Prop :=
| enciphers_end m : enciphers m EmptyString EmptyString m
| enciphers_letter m m1 m2 c x rest out :
    Enigma.classify c = Some x ->
    round m m1 ->
    enciphers m1 rest out m2 ->
    enciphers m (String c rest)
      (String (Enigma.charOfLetter (Enigma.signalPath m1 x)) out) m2
| enciphers_passthrough m m1 c rest out :
    Enigma.classify c = None ->
    enciphers m rest out m1 ->
    enciphers m (String c rest) (String c out) m1.

(** Modelled from the spec: one engine call answers a text with a ciphertext:
    a Machine is built for this call from the configuration and works through
    the text (sections 5 and 6). *)
Inductive answers : Enigma.MachineConfig -> string -> string -> Prop :=
| answers_call c m m' text out :
    Enigma.buildMachine c = Enigma.Ok m ->
    enciphers m text out m' ->
    answers c text out.

(** The number of characters of a text that the engine enciphers. *)
Fixpoint letterCount (s : string) : nat :=
  match s with
  | EmptyString => O
  | String c rest =>
      match Enigma.classify c with
      | Some _ => S (letterCount rest)
      | None => letterCount rest
      end
  end.

(** The same two calls on an engine that kept the Machine of the first call
    for the second one; the engine described by the spec is not this one. *)
Definition callTwiceCarrying (c : Enigma.MachineConfig) (text : string)
  : Enigma.Result (string * string) :=
  Enigma.bind (Enigma.buildMachine c) (fun m =>
  let (first, m1) := Enigma.encryptFrom m text in
  let (second, _) := Enigma.encryptFrom m1 text in
  Enigma.Ok (first, second)).

(** The front end's configuration once validated: rotors I, II, III at
    position A with ring A, reflector B, no plugboard pairs. *)
Definition defaultMachineConfig : Enigma.MachineConfig :=
  Enigma.mkMachineConfig
    (Enigma.mkRotorSetting "I" 0 0) (Enigma.mkRotorSetting "II" 0 0)
    (Enigma.mkRotorSetting "III" 0 0) "B" "".

(** Rotors I, II, III showing A, D, V: one keystroke before the middle
    rotor reaches its notch. *)
Definition configADV : Payload.Config :=
  Payload.mkConfig
    (Payload.mkRotorInit "I" "A" "A", Payload.mkRotorInit "II" "D" "A",
     Payload.mkRotorInit "III" "V" "A") "B" "".

(** C1 read literally for one keystroke: the key press issues a call carrying
    the whole accumulated plaintext in upper case. *)
Definition invokesWithAccumulatedText (key : string) (s : App.State) : Prop :=
  App.invoked (App.handleKeyPress key s) =
    (App.invoked s
       ++ [App.processEncryption_request
             (App.originalText (App.handleKeyPress key s))])%list.

(** A back end that is down: every call is rejected. *)
Definition unavailable (call : Payload.Request) : Payload.Settlement :=
  Payload.Rejected.

(** A back end that fails on the one-letter text H and works otherwise. *)
Definition flaky (call : Payload.Request) : Payload.Settlement :=
  if String.eqb (Payload.text call) "H" then Payload.Rejected else backEnd call.

(** Membership in the Letter domain, as a proposition. *)
Definition letter (x : Z) : Prop := 0 <= x < 26.

(** Both directions of a wiring stay within the letters and undo each
    other. *)
Definition wfPermutation (p : Enigma.Permutation) : Prop :=
  forall x, letter x ->
    letter (Enigma.apply p x) /\ letter (Enigma.applyInverse p x) /\
    Enigma.applyInverse p (Enigma.apply p x) = x /\
    Enigma.apply p (Enigma.applyInverse p x) = x.

(** A table that stays within the letters and is its own inverse. *)
Definition wfInvolutive (p : Enigma.InvolutivePermutation) : Prop :=
  forall x, letter x ->
    letter (Enigma.at_ (Enigma.table p) x) /\
    Enigma.at_ (Enigma.table p) (Enigma.at_ (Enigma.table p) x) = x.

(** A Machine whose three wirings, reflector and plugboard are as their
    constructions guarantee. *)
Definition wfMachine (m : Enigma.Machine) : Prop :=
  wfPermutation (Enigma.wiring (Enigma.spec (Enigma.left m))) /\
  wfPermutation (Enigma.wiring (Enigma.spec (Enigma.middle m))) /\
  wfPermutation (Enigma.wiring (Enigma.spec (Enigma.right m))) /\
  wfInvolutive (Enigma.reflector m) /\
  wfInvolutive (Enigma.plugboard m).


(** The characters of a text that the engine enciphers, in order. *)
Fixpoint keepLetters (s : string) : string :=
  match s with
  | EmptyString => EmptyString
  | String c rest =>
      match Enigma.classify c with
      | Some _ => String c (keepLetters rest)
      | None => keepLetters rest
      end
  end.

(** Text the front end can have accumulated: lower-case letters and spaces. *)
Fixpoint typedText (s : string) : bool :=
  match s with
  | EmptyString => true
  | String c rest => (Js.isLower c || (Js.code c =? 32)) && typedText rest
  end.

(** ** Notions used in the further properties of the front end *)

(** A key that [handleKeyPress] acts on: the space or a single letter. *)
Definition accepted (key : string) : bool :=
  String.eqb key " " || Js.testLetter key.

(** The key an event hands to [handleKeyPress], if any. *)
Definition keyOf (e : App.Event) : option string :=
  match e with
  | App.Click (App.KeyButton row col) => nth_error (nth row App.keyboardRows []) col
  | App.Click App.SpaceButton => Some " "
  | App.Click _ => None
  | App.KeyDown k => Some k
  | App.Settle _ => None
  end.

(** The keys of a sequence of events, in order. *)
Fixpoint keysOf (es : list App.Event) : list string :=
  match es with
  | [] => []
  | e :: rest =>
      match keyOf e with
      | Some k => k :: keysOf rest
      | None => keysOf rest
      end
  end.

(** An event that is not a click on one of the two clear buttons. *)
Definition notClear (e : App.Event) : bool :=
  match e with
  | App.Click App.MachineClearButton => false
  | App.Click App.NotepadClearButton => false
  | _ => true
  end.

(** The text a list of keys leaves in the notepad. *)
Fixpoint typedBy (keys : list string) : string :=
  match keys with
  | [] => EmptyString
  | k :: rest =>
      if accepted k then Js.toLowerCase k ++ typedBy rest else typedBy rest
  end.

(** Text of upper-case letters and spaces only. *)
Fixpoint shoutedText (s : string) : bool :=
  match s with
  | EmptyString => true
  | String c rest => (Js.isUpper c || (Js.code c =? 32)) && shoutedText rest
  end.

(** Text without a line break. *)
Fixpoint oneLine (s : string) : bool :=
  match s with
  | EmptyString => true
  | String c rest => negb (Js.code c =? 10) && oneLine rest
  end.

(** The number of line breaks in a text. *)
Fixpoint lineBreaks (s : string) : nat :=
  match s with
  | EmptyString => O
  | String c rest => if Js.code c =? 10 then S (lineBreaks rest) else lineBreaks rest
  end.

(** [lines.join('\n')] *)
Fixpoint joinLines (lines : list string) : string :=
  match lines with
  | [] => EmptyString
  | [l] => l
  | l :: rest => l ++ String (Js.chr 10) (joinLines rest)
  end.

(** What a dead back end leaves on the panel for a typed character: the
    space itself, a question mark for a letter. *)
Definition masked (c : ascii) : ascii :=
  if Js.code c =? 32 then c else Js.chr 63.

(** A back end that answers with the text it was sent. *)
Definition echo (call : Payload.Request) : Payload.Settlement :=
  Payload.Fulfilled (Payload.text call).

(** What the user does when every call settles before the next action. *)
Inductive Action :=
| Press (key : string)
| ClearAll.

Definition act (invoke : Payload.Request -> Payload.Settlement)
  (a : Action) (s : App.State) : App.State :=
  match a with
  | Press key => App.keystroke invoke key s
  | ClearAll => App.handleClear s
  end.

Definition session (invoke : Payload.Request -> Payload.Settlement)
  (acts : list Action) (s : App.State) : App.State :=
  fold_left (fun acc a => act invoke a acc) acts s.

(** ** The engine model reproduces the published reference output *)

Example reference_AAAAA :
  Enigma.enigma_process_string App.getDefaultConfig "AAAAA" = Enigma.Ok "BDZGO".
Proof. vm_compute. reflexivity. Qed.

Example validation_boundary :
  Enigma.enigma_process_string
    (Payload.mkConfig (Payload.mkRotorInit "I" "A" "A", Payload.mkRotorInit "I" "A" "A",
                       Payload.mkRotorInit "III" "A" "A") "B" "") "A"
    = Enigma.Err Enigma.DuplicateRotor /\
  Enigma.enigma_process_string
    (Payload.mkConfig (Payload.rotors App.getDefaultConfig) "B" "AB AC") "A"
    = Enigma.Err Enigma.InvalidPlugboard /\
  Enigma.enigma_process_string
    (Payload.mkConfig (Payload.rotors App.getDefaultConfig) "Z" "") "A"
    = Enigma.Err Enigma.UnknownReflector.
Proof. vm_compute. repeat split. Qed.

(** ** Letters, tables and permutations *)

Lemma inRange_letter x : Enigma.inRange x = true <-> letter x.
Proof. unfold Enigma.inRange, letter. rewrite andb_true_iff. lia. Qed.

Lemma letter_in_alphabet x : letter x <-> In x Enigma.alphabet.
Proof.
  unfold Enigma.alphabet, letter. rewrite in_map_iff. split.
  - intros H. exists (Z.to_nat x). rewrite in_seq. lia.
  - intros [n [<- Hn]]. apply in_seq in Hn. lia.
Qed.

Lemma at_map (f : Z -> Z) l x :
  0 <= x < Z.of_nat (List.length l) ->
  Enigma.at_ (map f l) x = f (Enigma.at_ l x).
Proof.
  intros H. unfold Enigma.at_.
  rewrite (nth_indep (map f l) 0 (f 0)) by (rewrite length_map; lia).
  apply map_nth.
Qed.

Lemma at_alphabet x : letter x -> Enigma.at_ Enigma.alphabet x = x.
Proof.
  intros H. unfold Enigma.at_, Enigma.alphabet.
  change 0 with (Z.of_nat 0) at 1. rewrite map_nth, seq_nth by (unfold letter in H; lia).
  unfold letter in H. lia.
Qed.

Lemma at_map_alphabet (f : Z -> Z) x :
  letter x -> Enigma.at_ (map f Enigma.alphabet) x = f x.
Proof.
  intros H. rewrite at_map, at_alphabet; auto.
Qed.

Lemma has_dup_NoDup l : Enigma.has_dup l = false -> NoDup l.
Proof.
  induction l as [|h t IH]; simpl; intros H; constructor.
  - apply orb_false_iff in H. destruct H as [H _].
    intros Hin. assert (existsb (Z.eqb h) t = true); [|congruence].
    apply existsb_exists. exists h. split; auto. apply Z.eqb_refl.
  - apply IH. apply orb_false_iff in H. tauto.
Qed.

Lemma index_of_nth l : NoDup l -> forall i, (i < List.length l)%nat ->
  Enigma.index_of (nth i l 0) l = Z.of_nat i.
Proof.
  induction 1 as [|h t Hnin Hnd IH]; cbn [Enigma.index_of nth List.length];
    intros i Hi; [lia|].
  destruct i as [|i].
  - rewrite Z.eqb_refl. reflexivity.
  - destruct (Z.eqb_spec h (nth i t 0)) as [E|E].
    + exfalso. apply Hnin. rewrite E. apply nth_In. lia.
    + rewrite IH by lia. lia.
Qed.

Lemma nth_index_of l y : In y l ->
  0 <= Enigma.index_of y l < Z.of_nat (List.length l) /\
  Enigma.at_ l (Enigma.index_of y l) = y.
Proof.
  unfold Enigma.at_.
  induction l as [|h t IH]; cbn [Enigma.index_of List.length In];
    intros Hin; [tauto|].
  destruct (Z.eqb_spec h y) as [E|E].
  - split; [lia|]. simpl. assumption.
  - destruct Hin as [Hin|Hin]; [congruence|].
    destruct (IH Hin) as [Hr Hn]. split; [lia|].
    replace (Z.to_nat (1 + Enigma.index_of y t))
      with (S (Z.to_nat (Enigma.index_of y t))) by lia.
    exact Hn.
Qed.

Lemma bijection_covers l :
  Enigma.isBijection l = true ->
  List.length l = 26%nat /\ NoDup l /\ (forall y, In y l <-> letter y).
Proof.
  unfold Enigma.isBijection. rewrite !andb_true_iff, negb_true_iff.
  intros [[Hlen Hall] Hdup]. apply Nat.eqb_eq in Hlen.
  pose proof (has_dup_NoDup _ Hdup) as Hnd.
  rewrite forallb_forall in Hall.
  assert (Hincl : incl l Enigma.alphabet).
  { intros y Hy. apply letter_in_alphabet, inRange_letter, Hall, Hy. }
  split; [exact Hlen|]. split; [exact Hnd|]. intros y. split.
  - intros Hy. apply letter_in_alphabet, Hincl, Hy.
  - intros Hy. apply letter_in_alphabet in Hy.
    refine (NoDup_length_incl Hnd _ Hincl y Hy).
    rewrite Hlen. reflexivity.
Qed.

Lemma mkPermutation_wf targets p :
  Enigma.mkPermutation targets = Enigma.Ok p -> wfPermutation p.
Proof.
  unfold Enigma.mkPermutation, Enigma.guard.
  destruct (Enigma.isBijection targets) eqn:Hb; cbn [Enigma.bind]; [|discriminate].
  intros H.
  assert (Hp : p = Enigma.mkPerm targets
                 (map (fun y => Enigma.index_of y targets) Enigma.alphabet))
    by congruence.
  subst p. clear H. destruct (bijection_covers _ Hb) as [Hlen [Hnd Hcov]].
  intros x Hx. unfold Enigma.apply, Enigma.applyInverse.
  cbn [Enigma.forward Enigma.inverse].
  assert (Hin : In x targets) by (apply Hcov, Hx).
  destruct (nth_index_of _ _ Hin) as [Hr Hn].
  assert (Hax : In (Enigma.at_ targets x) targets).
  { unfold Enigma.at_. apply nth_In. unfold letter in Hx. lia. }
  assert (Hlx : letter (Enigma.at_ targets x)) by (apply Hcov, Hax).
  rewrite !at_map_alphabet by assumption.
  split; [exact Hlx|]. split; [unfold letter; lia|]. split; [|exact Hn].
  unfold Enigma.at_. rewrite index_of_nth; unfold letter in Hx; auto; lia.
Qed.

(** ** Rotors: the two signal directions undo each other *)

Lemma mod_letter a : letter (a mod 26).
Proof. unfold letter. apply Z.mod_pos_bound. lia. Qed.

Lemma shift_out_in a d : letter a -> ((a + d) mod 26 - d) mod 26 = a.
Proof.
  intros H. rewrite Zminus_mod_idemp_l.
  replace (a + d - d) with a by ring. apply Z.mod_small. exact H.
Qed.

Lemma shift_in_out a d : letter a -> ((a - d) mod 26 + d) mod 26 = a.
Proof.
  intros H. rewrite Zplus_mod_idemp_l.
  replace (a - d + d) with a by ring. apply Z.mod_small. exact H.
Qed.

Lemma rotor_forward_letter w x p r : letter (Enigma.rotor_forward w x p r).
Proof. apply mod_letter. Qed.

Lemma rotor_backward_letter w x p r : letter (Enigma.rotor_backward w x p r).
Proof. apply mod_letter. Qed.

Lemma rotor_backward_forward w x p r :
  wfPermutation w -> letter x ->
  Enigma.rotor_backward w (Enigma.rotor_forward w x p r) p r = x.
Proof.
  intros Hw Hx. unfold Enigma.rotor_backward, Enigma.rotor_forward.
  destruct (Hw ((x + p - r) mod 26) (mod_letter _)) as [Ha [_ [Hinv _]]].
  replace (Enigma.apply w ((x + p - r) mod 26) - p + r)
    with (Enigma.apply w ((x + p - r) mod 26) - (p - r)) by ring.
  replace (((Enigma.apply w ((x + p - r) mod 26) - (p - r)) mod 26) + p - r)
    with (((Enigma.apply w ((x + p - r) mod 26) - (p - r)) mod 26) + (p - r)) by ring.
  rewrite shift_in_out by exact Ha. rewrite Hinv.
  replace (x + p - r) with (x + (p - r)) by ring.
  replace ((x + (p - r)) mod 26 - p + r) with ((x + (p - r)) mod 26 - (p - r)) by ring.
  apply shift_out_in, Hx.
Qed.

Lemma rotor_forward_backward w x p r :
  wfPermutation w -> letter x ->
  Enigma.rotor_forward w (Enigma.rotor_backward w x p r) p r = x.
Proof.
  intros Hw Hx. unfold Enigma.rotor_backward, Enigma.rotor_forward.
  destruct (Hw ((x + p - r) mod 26) (mod_letter _)) as [_ [Ha [_ Hinv]]].
  replace (Enigma.applyInverse w ((x + p - r) mod 26) - p + r)
    with (Enigma.applyInverse w ((x + p - r) mod 26) - (p - r)) by ring.
  replace (((Enigma.applyInverse w ((x + p - r) mod 26) - (p - r)) mod 26) + p - r)
    with (((Enigma.applyInverse w ((x + p - r) mod 26) - (p - r)) mod 26) + (p - r))
    by ring.
  rewrite shift_in_out by exact Ha. rewrite Hinv.
  replace (x + p - r) with (x + (p - r)) by ring.
  replace ((x + (p - r)) mod 26 - p + r) with ((x + (p - r)) mod 26 - (p - r)) by ring.
  apply shift_out_in, Hx.
Qed.

(** ** The signal path of a well-formed Machine is an involution on letters *)

Lemma signalPath_involutive m x :
  wfMachine m -> letter x ->
  letter (Enigma.signalPath m x) /\
  Enigma.signalPath m (Enigma.signalPath m x) = x.
Proof.
  intros (Hl & Hm & Hr & Hu & Hp) Hx.
  unfold Enigma.signalPath, Enigma.swap, Enigma.reflect,
    Enigma.forward_, Enigma.backward_.
  set (wl := Enigma.wiring (Enigma.spec (Enigma.left m))) in *.
  set (wm := Enigma.wiring (Enigma.spec (Enigma.middle m))) in *.
  set (wr := Enigma.wiring (Enigma.spec (Enigma.right m))) in *.
  set (pl := Enigma.position (Enigma.left m)). set (gl := Enigma.ring (Enigma.left m)).
  set (pm := Enigma.position (Enigma.middle m)). set (gm := Enigma.ring (Enigma.middle m)).
  set (pr := Enigma.position (Enigma.right m)). set (gr := Enigma.ring (Enigma.right m)).
  set (P := Enigma.at_ (Enigma.table (Enigma.plugboard m))).
  set (U := Enigma.at_ (Enigma.table (Enigma.reflector m))).
  assert (HP : forall y, letter y -> letter (P y) /\ P (P y) = y) by (intros; apply Hp; auto).
  assert (HU : forall y, letter y -> letter (U y) /\ U (U y) = y) by (intros; apply Hu; auto).
  set (a := P x). assert (Ha : letter a) by (apply HP, Hx).
  set (b := Enigma.rotor_forward wr a pr gr).
  set (c := Enigma.rotor_forward wm b pm gm).
  set (d := Enigma.rotor_forward wl c pl gl).
  assert (Hb : letter b) by apply rotor_forward_letter.
  assert (Hc : letter c) by apply rotor_forward_letter.
  assert (Hd : letter d) by apply rotor_forward_letter.
  set (e := U d). assert (He : letter e) by (apply HU, Hd).
  set (f := Enigma.rotor_backward wl e pl gl).
  set (g := Enigma.rotor_backward wm f pm gm).
  set (h := Enigma.rotor_backward wr g pr gr).
  assert (Hf : letter f) by apply rotor_backward_letter.
  assert (Hg : letter g) by apply rotor_backward_letter.
  assert (Hh : letter h) by apply rotor_backward_letter.
  split; [apply HP, Hh|].
  replace (P (P h)) with h by (symmetry; apply HP, Hh).
  unfold h. rewrite rotor_forward_backward by assumption.
  unfold g. rewrite rotor_forward_backward by assumption.
  unfold f. rewrite rotor_forward_backward by assumption.
  unfold e. replace (U (U d)) with d by (symmetry; apply HU, Hd).
  unfold d. rewrite rotor_backward_forward by assumption.
  unfold c. rewrite rotor_backward_forward by assumption.
  unfold b. rewrite rotor_backward_forward by assumption.
  unfold a. apply HP, Hx.
Qed.

Lemma stepping_wf m : wfMachine m -> wfMachine (Enigma.stepping m).
Proof.
  unfold Enigma.stepping.
  destruct (Enigma.atNotch (Enigma.middle m)), (Enigma.atNotch (Enigma.right m));
    intros H; exact H.
Qed.

(** ** Characters and letters *)

Lemma code_bounded c : 0 <= Js.code c < 256.
Proof. unfold Js.code. pose proof (N_ascii_bounded c). lia. Qed.

Lemma code_chr n : 0 <= n < 256 -> Js.code (Js.chr n) = n.
Proof.
  intros H. unfold Js.code, Js.chr. rewrite N_ascii_embedding by lia. lia.
Qed.

Lemma chr_code c : Js.chr (Js.code c) = c.
Proof. unfold Js.code, Js.chr. rewrite N2Z.id. apply ascii_N_embedding. Qed.

Lemma isUpper_iff c : Js.isUpper c = true <-> 65 <= Js.code c <= 90.
Proof. unfold Js.isUpper. rewrite andb_true_iff. lia. Qed.

Lemma isLower_iff c : Js.isLower c = true <-> 97 <= Js.code c <= 122.
Proof. unfold Js.isLower. rewrite andb_true_iff. lia. Qed.

Lemma upper_not_lower c : Js.isUpper c = true -> Js.isLower c = false.
Proof.
  rewrite isUpper_iff. intros H. destruct (Js.isLower c) eqn:E; auto.
  apply isLower_iff in E. lia.
Qed.

Lemma classify_charOfLetter y :
  letter y -> Enigma.classify (Enigma.charOfLetter y) = Some y.
Proof.
  intros H. unfold letter in H. unfold Enigma.classify, Enigma.charOfLetter.
  assert (E : Js.isUpper (Js.chr (y + 65)) = true)
    by (apply isUpper_iff; rewrite code_chr; lia).
  rewrite E, code_chr by lia. f_equal. lia.
Qed.

Lemma classify_some c x :
  Enigma.classify c = Some x ->
  letter x /\ Enigma.charOfLetter x = Js.upperChar c.
Proof.
  unfold Enigma.classify, Enigma.charOfLetter, Js.upperChar, letter.
  destruct (Js.isUpper c) eqn:U.
  - intros [= <-]. rewrite (upper_not_lower _ U). apply isUpper_iff in U.
    split; [lia|]. replace (Js.code c - 65 + 65) with (Js.code c) by ring.
    apply chr_code.
  - destruct (Js.isLower c) eqn:L; [|discriminate].
    intros [= <-]. apply isLower_iff in L. split; [lia|]. f_equal. ring.
Qed.

Lemma classify_none c : Enigma.classify c = None -> Js.upperChar c = c.
Proof.
  unfold Enigma.classify, Js.upperChar.
  destruct (Js.isUpper c); [discriminate|].
  destruct (Js.isLower c); [discriminate|reflexivity].
Qed.

Lemma classify_upperChar c : Enigma.classify (Js.upperChar c) = Enigma.classify c.
Proof.
  destruct (Enigma.classify c) as [x|] eqn:E.
  - destruct (classify_some _ _ E) as [Hx <-]. apply classify_charOfLetter, Hx.
  - rewrite (classify_none _ E). exact E.
Qed.


(** ** Enciphering a text on a Machine *)

Lemma encryptFrom_letter m c x rest :
  Enigma.classify c = Some x ->
  Enigma.encryptFrom m (String c rest) =
    (String (Enigma.charOfLetter (fst (Enigma.encryptLetter m x)))
            (fst (Enigma.encryptFrom (snd (Enigma.encryptLetter m x)) rest)),
     snd (Enigma.encryptFrom (snd (Enigma.encryptLetter m x)) rest)).
Proof.
  intros E. cbn [Enigma.encryptFrom]. rewrite E.
  unfold Enigma.encryptLetter. cbn [fst snd].
  destruct (Enigma.encryptFrom (Enigma.stepping m) rest). reflexivity.
Qed.

Lemma encryptFrom_passthrough m c rest :
  Enigma.classify c = None ->
  Enigma.encryptFrom m (String c rest) =
    (String c (fst (Enigma.encryptFrom m rest)), snd (Enigma.encryptFrom m rest)).
Proof.
  intros E. cbn [Enigma.encryptFrom]. rewrite E.
  destruct (Enigma.encryptFrom m rest). reflexivity.
Qed.

Lemma encryptFrom_wf text : forall m,
  wfMachine m -> wfMachine (snd (Enigma.encryptFrom m text)).
Proof.
  induction text as [|c rest IH]; intros m Hm; [exact Hm|].
  destruct (Enigma.classify c) as [x|] eqn:E.
  - rewrite (encryptFrom_letter _ _ _ _ E). cbn [snd]. apply IH, stepping_wf, Hm.
  - rewrite (encryptFrom_passthrough _ _ _ E). cbn [snd]. apply IH, Hm.
Qed.

Lemma encryptFrom_app t1 : forall m t2,
  Enigma.encryptFrom m (t1 ++ t2) =
    (fst (Enigma.encryptFrom m t1)
       ++ fst (Enigma.encryptFrom (snd (Enigma.encryptFrom m t1)) t2),
     snd (Enigma.encryptFrom (snd (Enigma.encryptFrom m t1)) t2)).
Proof.
  induction t1 as [|c rest IH]; intros m t2.
  - cbn. destruct (Enigma.encryptFrom m t2). reflexivity.
  - change (String c rest ++ t2) with (String c (rest ++ t2)).
    destruct (Enigma.classify c) as [x|] eqn:E.
    + rewrite !(encryptFrom_letter _ _ _ _ E), IH. reflexivity.
    + rewrite !(encryptFrom_passthrough _ _ _ E), IH. reflexivity.
Qed.

Lemma encryptFrom_length text : forall m,
  String.length (fst (Enigma.encryptFrom m text)) = String.length text.
Proof.
  induction text as [|c rest IH]; intros m; [reflexivity|].
  destruct (Enigma.classify c) as [x|] eqn:E.
  - rewrite (encryptFrom_letter _ _ _ _ E). cbn. rewrite IH. reflexivity.
  - rewrite (encryptFrom_passthrough _ _ _ E). cbn. rewrite IH. reflexivity.
Qed.

Lemma encryptFrom_toUpperCase text : forall m,
  Enigma.encryptFrom m (Js.toUpperCase text) = Enigma.encryptFrom m text.
Proof.
  unfold Js.toUpperCase.
  induction text as [|c rest IH]; intros m; [reflexivity|].
  cbn [Js.mapString].
  pose proof (classify_upperChar c) as E'.
  destruct (Enigma.classify c) as [x|] eqn:E.
  - rewrite (encryptFrom_letter _ _ _ _ E'), (encryptFrom_letter _ _ _ _ E), IH.
    reflexivity.
  - rewrite (encryptFrom_passthrough _ _ _ E'), (encryptFrom_passthrough _ _ _ E), IH.
    rewrite (classify_none _ E). reflexivity.
Qed.


Lemma encryptFrom_keepLetters text : forall m,
  wfMachine m ->
  Enigma.encryptFrom m (keepLetters text) =
    (keepLetters (fst (Enigma.encryptFrom m text)),
     snd (Enigma.encryptFrom m text)).
Proof.
  induction text as [|c rest IH]; intros m Hm; [reflexivity|].
  destruct (Enigma.classify c) as [x|] eqn:E.
  - destruct (classify_some _ _ E) as [Hx _].
    destruct (signalPath_involutive (Enigma.stepping m) x (stepping_wf _ Hm) Hx)
      as [Hy _].
    cbn [keepLetters]. rewrite E, !(encryptFrom_letter _ _ _ _ E).
    cbn [fst snd keepLetters].
    unfold Enigma.encryptLetter. cbn [fst snd].
    rewrite (classify_charOfLetter _ Hy), IH by (apply stepping_wf, Hm).
    reflexivity.
  - cbn [keepLetters]. rewrite E, (encryptFrom_passthrough _ _ _ E).
    cbn [fst snd keepLetters]. rewrite E. apply IH, Hm.
Qed.

Lemma encryptFrom_get text : forall m i c,
  String.get i text = Some c -> Enigma.classify c = None ->
  String.get i (fst (Enigma.encryptFrom m text)) = Some c.
Proof.
  induction text as [|c0 rest IH]; intros m i c Hget Hc; [discriminate|].
  destruct (Enigma.classify c0) as [x|] eqn:E.
  - rewrite (encryptFrom_letter _ _ _ _ E). cbn [fst].
    destruct i as [|i]; cbn [String.get] in *.
    + congruence.
    + apply IH; assumption.
  - rewrite (encryptFrom_passthrough _ _ _ E). cbn [fst].
    destruct i as [|i]; cbn [String.get] in *.
    + exact Hget.
    + apply IH; assumption.
Qed.

(** ** Construction yields well-formed parts *)

Lemma bind_ok {A B} (r : Enigma.Result A) (k : A -> Enigma.Result B) b :
  Enigma.bind r k = Enigma.Ok b -> exists a, r = Enigma.Ok a /\ k a = Enigma.Ok b.
Proof. destruct r as [a|e]; cbn; [eauto|discriminate]. Qed.

Lemma guard_ok c e u : Enigma.guard c e = Enigma.Ok u -> c = true.
Proof. unfold Enigma.guard. destruct c; [reflexivity|discriminate]. Qed.

Ltac bind_inv H :=
  let a := fresh "a" in
  let Ha := fresh "Ha" in
  apply bind_ok in H; destruct H as [a [Ha H]].

Lemma lookupRotor_wf name sp :
  Enigma.lookupRotor name = Enigma.Ok sp -> wfPermutation (Enigma.wiring sp).
Proof.
  unfold Enigma.lookupRotor.
  destruct (Enigma.assoc name Enigma.rotorCatalog) as [[w n]|]; [|discriminate].
  intros H. bind_inv H. injection H as <-. cbn [Enigma.wiring].
  eapply mkPermutation_wf, Ha.
Qed.

Lemma mkReflector_wf targets u :
  Enigma.mkReflector targets = Enigma.Ok u -> wfInvolutive u.
Proof.
  unfold Enigma.mkReflector. intros H. bind_inv H. injection H as <-.
  apply guard_ok in Ha. rewrite !andb_true_iff in Ha.
  destruct Ha as [[Hb Hi] _].
  destruct (bijection_covers _ Hb) as [Hlen [_ Hcov]].
  unfold Enigma.isInvolutive in Hi. rewrite forallb_forall in Hi.
  intros x Hx. cbn [Enigma.table]. split.
  - apply Hcov. unfold Enigma.at_. apply nth_In. unfold letter in Hx. lia.
  - apply Z.eqb_eq, Hi, letter_in_alphabet, Hx.
Qed.

Lemma lookupReflector_wf id u :
  Enigma.lookupReflector id = Enigma.Ok u -> wfInvolutive u.
Proof.
  unfold Enigma.lookupReflector.
  destruct (Enigma.assoc id Enigma.reflectorCatalog); [|discriminate].
  apply mkReflector_wf.
Qed.

Lemma letterOfUpper_letter c x : Enigma.letterOfUpper c = Some x -> letter x.
Proof.
  unfold Enigma.letterOfUpper. destruct (Js.isUpper c) eqn:U; [|discriminate].
  intros [= <-]. apply isUpper_iff in U. unfold letter. lia.
Qed.

Lemma parsePairs_letters ts : forall ps,
  Enigma.parsePairs ts = Enigma.Ok ps -> Forall letter (Enigma.pairLetters ps).
Proof.
  induction ts as [|t rest IH]; cbn [Enigma.parsePairs]; intros ps H.
  - injection H as <-. constructor.
  - bind_inv H. bind_inv H. injection H as <-. destruct a as [x y].
    cbn [Enigma.pairLetters]. unfold Enigma.parsePair in Ha.
    destruct t as [|c1 [|c2 [|]]]; try discriminate.
    destruct (Enigma.letterOfUpper c1) as [x'|] eqn:E1; [|discriminate].
    destruct (Enigma.letterOfUpper c2) as [y'|] eqn:E2; [|discriminate].
    bind_inv Ha. injection Ha as <- <-.
    constructor; [eapply letterOfUpper_letter; eassumption|].
    constructor; [eapply letterOfUpper_letter; eassumption|].
    apply IH. assumption.
Qed.

Lemma swapPairs_image ps x :
  Enigma.swapPairs ps x = x \/ In (Enigma.swapPairs ps x) (Enigma.pairLetters ps).
Proof.
  induction ps as [|[a b] rest IH]; cbn [Enigma.swapPairs Enigma.pairLetters In].
  - auto.
  - destruct (Z.eqb_spec x a); [auto|]. destruct (Z.eqb_spec x b); [auto|].
    destruct IH; auto.
Qed.

Lemma swapPairs_involutive ps : NoDup (Enigma.pairLetters ps) ->
  forall x, Enigma.swapPairs ps (Enigma.swapPairs ps x) = x.
Proof.
  induction ps as [|[a b] rest IH]; cbn [Enigma.swapPairs Enigma.pairLetters];
    intros Hnd x; [reflexivity|].
  inversion Hnd as [|? ? Ha Hnd1]; subst. inversion Hnd1 as [|? ? Hb Hnd2]; subst.
  assert (Hab : a <> b) by (intros ->; apply Ha; left; reflexivity).
  destruct (Z.eqb_spec x a) as [->|Hxa].
  - destruct (Z.eqb_spec b a); [congruence|]. rewrite Z.eqb_refl. reflexivity.
  - destruct (Z.eqb_spec x b) as [->|Hxb].
    + rewrite Z.eqb_refl. reflexivity.
    + destruct (swapPairs_image rest x) as [E|Hin].
      * rewrite E. destruct (Z.eqb_spec x a); [congruence|].
        destruct (Z.eqb_spec x b); [congruence|]. exact E.
      * destruct (Z.eqb_spec (Enigma.swapPairs rest x) a) as [E|_].
        { exfalso. apply Ha. right. rewrite <- E. exact Hin. }
        destruct (Z.eqb_spec (Enigma.swapPairs rest x) b) as [E|_].
        { exfalso. apply Hb. rewrite <- E. exact Hin. }
        apply IH, Hnd2.
Qed.

Lemma mkPlugboard_wf pairing p :
  Enigma.mkPlugboard pairing = Enigma.Ok p -> wfInvolutive p.
Proof.
  unfold Enigma.mkPlugboard. intros H.
  bind_inv H. bind_inv H. bind_inv H.
  assert (Hp : p = Enigma.mkInvolutive (map (Enigma.swapPairs a) Enigma.alphabet))
    by congruence.
  subst p. clear H.
  apply guard_ok, negb_true_iff, has_dup_NoDup in Ha0.
  pose proof (parsePairs_letters _ _ Ha) as Hl. rewrite Forall_forall in Hl.
  intros x Hx. cbn [Enigma.table].
  assert (Hy : letter (Enigma.swapPairs a x)).
  { destruct (swapPairs_image a x) as [E|Hin]; [rewrite E; exact Hx|auto]. }
  rewrite !at_map_alphabet by assumption.
  split; [exact Hy|apply swapPairs_involutive, Ha0].
Qed.

Lemma mountRotor_wf s r :
  Enigma.mountRotor s = Enigma.Ok r -> wfPermutation (Enigma.wiring (Enigma.spec r)).
Proof.
  unfold Enigma.mountRotor. intros H. bind_inv H. injection H as <-.
  cbn [Enigma.spec]. eapply lookupRotor_wf, Ha.
Qed.

Lemma buildMachine_wf c m : Enigma.buildMachine c = Enigma.Ok m -> wfMachine m.
Proof.
  unfold Enigma.buildMachine. intros H.
  bind_inv H. bind_inv H. bind_inv H. bind_inv H. bind_inv H.
  injection H as <-. unfold wfMachine.
  cbn [Enigma.left Enigma.middle Enigma.right Enigma.reflector Enigma.plugboard].
  eauto 10 using mountRotor_wf, lookupReflector_wf, mkPlugboard_wf.
Qed.

Lemma validateRotor_mounts r s :
  Enigma.validateRotor r = Enigma.Ok s -> exists st, Enigma.mountRotor s = Enigma.Ok st.
Proof.
  unfold Enigma.validateRotor, Enigma.mountRotor. intros H.
  bind_inv H. bind_inv H. bind_inv H. injection H as <-.
  cbn [Enigma.rotor_name Enigma.start_position Enigma.ring_setting].
  rewrite Ha. cbn [Enigma.bind]. eauto.
Qed.

Lemma validator_builds raw c :
  Enigma.ConfigValidator raw = Enigma.Ok c ->
  exists m, Enigma.buildMachine c = Enigma.Ok m /\ wfMachine m.
Proof.
  unfold Enigma.ConfigValidator. destruct (Payload.rotors raw) as [[r0 r1] r2].
  intros H. bind_inv H. bind_inv H. bind_inv H. bind_inv H. bind_inv H. bind_inv H.
  injection H as <-.
  destruct (validateRotor_mounts _ _ Ha) as [sl Hl].
  destruct (validateRotor_mounts _ _ Ha0) as [sm Hm].
  destruct (validateRotor_mounts _ _ Ha1) as [sr Hr].
  assert (Hb : Enigma.buildMachine
                 (Enigma.mkMachineConfig a a0 a1 (Payload.reflector raw)
                    (Payload.plugboard_pairs raw))
               = Enigma.Ok (Enigma.mkMachine sl sm sr a3 a4)).
  { unfold Enigma.buildMachine.
    cbn [Enigma.cfg_left Enigma.cfg_middle Enigma.cfg_right
         Enigma.cfg_reflector Enigma.cfg_plugboard].
    rewrite Hl, Hm, Hr, Ha3, Ha4. reflexivity. }
  eexists. split; [exact Hb|]. eapply buildMachine_wf, Hb.
Qed.

(** ** One engine call on a valid configuration *)

Lemma encryptString_valid raw c :
  Enigma.ConfigValidator raw = Enigma.Ok c ->
  exists m, Enigma.buildMachine c = Enigma.Ok m /\ wfMachine m /\
    forall text, Enigma.encryptString c text
                 = Enigma.Ok (fst (Enigma.encryptFrom m text)).
Proof.
  intros H. destruct (validator_builds _ _ H) as [m [Hb Hw]].
  exists m. split; [exact Hb|]. split; [exact Hw|].
  intros text. unfold Enigma.encryptString. rewrite Hb. reflexivity.
Qed.

Lemma length_append a b :
  String.length (a ++ b) = (String.length a + String.length b)%nat.
Proof. induction a as [|c a IH]; [reflexivity|]. cbn. rewrite IH. reflexivity. Qed.

Lemma prefix_append a b : String.prefix a (a ++ b) = true.
Proof.
  induction a as [|c a IH]; [destruct b; reflexivity|].
  cbn. destruct (ascii_dec c c); [exact IH|congruence].
Qed.

(** The validated form of the configuration the front end sends. *)
Lemma validated_default :
  Enigma.ConfigValidator App.getDefaultConfig =
    Enigma.Ok defaultMachineConfig.
Proof. vm_compute. reflexivity. Qed.

(** An engine that kept its Machine between calls would answer the second
    call differently from the first. *)
Example carrying_state_differs :
  callTwiceCarrying
    defaultMachineConfig "A"
  = Enigma.Ok ("B", "D").
Proof. vm_compute. reflexivity. Qed.

(** Section 8, stepping scenario: over 26 letters from AAA the right rotor
    makes a full turn, the middle rotor advances once, the left rotor stays. *)
Example stepping_26_letters :
  exists m, Enigma.buildMachine
              defaultMachineConfig = Enigma.Ok m /\
    Enigma.positions m = (0, 0, 0) /\
    Enigma.positions (snd (Enigma.encryptFrom m "AAAAAAAAAAAAAAAAAAAAAAAAAA"))
      = (0, 1, 0).
Proof. eexists. split; [vm_compute; reflexivity|]. split; vm_compute; reflexivity. Qed.

(** ** Claims about the engine *)

Lemma turnover_deterministic m a b : turnover m a -> turnover m b -> a = b.
Proof.
  intros Ha Hb. inversion Ha; subst; inversion Hb; subst;
    try reflexivity; congruence.
Qed.

Lemma round_deterministic m a b : round m a -> round m b -> a = b.
Proof.
  intros Ha Hb. inversion Ha; subst. inversion Hb; subst.
  f_equal. eapply turnover_deterministic; eassumption.
Qed.

Lemma round_exists m : round m (Enigma.stepping m).
Proof.
  unfold Enigma.stepping.
  destruct (Enigma.atNotch (Enigma.middle m)) eqn:Hm.
  - constructor. apply turnover_double, Hm.
  - destruct (Enigma.atNotch (Enigma.right m)) eqn:Hr; constructor.
    + apply turnover_middle; assumption.
    + apply turnover_none; assumption.
Qed.

Lemma enciphers_deterministic m text o1 m1 :
  enciphers m text o1 m1 ->
  forall o2 m2, enciphers m text o2 m2 -> o1 = o2 /\ m1 = m2.
Proof.
  induction 1 as [m|m ma mb c x rest out Hc Hr He IH|m ma c rest out Hc He IH];
    intros o2 m2 H2; inversion H2; subst; try congruence.
  - split; reflexivity.
  - match goal with
    | Hx : Enigma.classify c = Some ?y, Hs : round m ?n, Ht : enciphers ?n rest _ _ |- _ =>
        assert (y = x) by congruence; subst y;
        pose proof (round_deterministic _ _ _ Hr Hs); subst n;
        destruct (IH _ _ Ht) as [-> ->]
    end.
    split; reflexivity.
  - match goal with
    | Ht : enciphers m rest _ _ |- _ => destruct (IH _ _ Ht) as [-> ->]
    end.
    split; reflexivity.
Qed.

Lemma enciphers_exists text : forall m,
  enciphers m text (fst (Enigma.encryptFrom m text)) (snd (Enigma.encryptFrom m text)).
Proof.
  induction text as [|c rest IH]; intros m; [constructor|].
  destruct (Enigma.classify c) as [x|] eqn:E.
  - rewrite (encryptFrom_letter _ _ _ _ E). cbn [fst snd Enigma.encryptLetter].
    eapply enciphers_letter; [exact E|apply round_exists|apply IH].
  - rewrite (encryptFrom_passthrough _ _ _ E). cbn [fst snd].
    apply enciphers_passthrough; [exact E|apply IH].
Qed.

(** C2 (determinism): for every valid MachineConfig and every text, a call
    has an answer, and any two calls, each working on its own Machine built
    from the configuration by the rules of sections 4.5 to 4.7, give the same
    ciphertext; that ciphertext is the one encryptString computes. *)
Theorem C2_determinism raw c text :
  Enigma.ConfigValidator raw = Enigma.Ok c ->
  (exists out, answers c text out) /\
  (forall first second,
     answers c text first -> answers c text second -> first = second) /\
  (forall out, answers c text out -> Enigma.encryptString c text = Enigma.Ok out).
Proof.
  intros H. destruct (encryptString_valid _ _ H) as [m [Hb [_ He]]].
  assert (Hdet : forall first second,
            answers c text first -> answers c text second -> first = second).
  { intros first second H1 H2.
    inversion H1 as [? m1 m1' ? ? Hb1 He1]; subst.
    inversion H2 as [? m2 m2' ? ? Hb2 He2]; subst.
    assert (m1 = m2) by congruence. subst m2.
    destruct (enciphers_deterministic _ _ _ _ He1 _ _ He2) as [E _]. exact E. }
  assert (Hans : answers c text (fst (Enigma.encryptFrom m text)))
    by (eapply answers_call; [exact Hb|apply enciphers_exists]).
  split; [eexists; exact Hans|]. split; [exact Hdet|].
  intros out Hout. rewrite He. f_equal. apply (Hdet _ _ Hans Hout).
Qed.

Lemma C2_determinism_witness :
  (exists out, answers defaultMachineConfig "HELLO WORLD" out) /\
  (forall first second,
     answers defaultMachineConfig "HELLO WORLD" first ->
     answers defaultMachineConfig "HELLO WORLD" second -> first = second) /\
  (forall out, answers defaultMachineConfig "HELLO WORLD" out ->
     Enigma.encryptString defaultMachineConfig "HELLO WORLD" = Enigma.Ok out).
Proof.
  apply (C2_determinism App.getDefaultConfig). vm_compute. reflexivity.
Defined.

(** C3 (prefix consistency): for every valid MachineConfig and texts T1, T2
    with T1 a strict prefix of T2, the ciphertext of T2 begins with the
    ciphertext of T1, for letters-only texts and for any others alike; both
    calls start from the Machine built from the configuration, no rotor
    position is carried from one call to the next. *)
Theorem C3_prefix_consistency raw c t1 t2 rest :
  Enigma.ConfigValidator raw = Enigma.Ok c ->
  t2 = t1 ++ rest -> rest <> "" ->
  exists m o1 o2,
    Enigma.buildMachine c = Enigma.Ok m /\
    Enigma.encryptString c t1 = Enigma.Ok o1 /\
    Enigma.encryptString c t2 = Enigma.Ok o2 /\
    o1 = fst (Enigma.encryptFrom m t1) /\
    o2 = fst (Enigma.encryptFrom m t2) /\
    String.prefix o1 o2 = true /\
    (String.length o1 < String.length o2)%nat.
Proof.
  intros H -> Hrest. destruct (encryptString_valid _ _ H) as [m [Hb [_ He]]].
  exists m, (fst (Enigma.encryptFrom m t1)), (fst (Enigma.encryptFrom m (t1 ++ rest))).
  repeat (split; [solve [auto]|]).
  split.
  - rewrite encryptFrom_app. cbn [fst]. apply prefix_append.
  - rewrite !encryptFrom_length, length_append.
    destruct rest; [contradiction|]. cbn [String.length]. lia.
Qed.

Lemma C3_prefix_consistency_witness :
  exists m o1 o2,
    Enigma.buildMachine defaultMachineConfig = Enigma.Ok m /\
    Enigma.encryptString defaultMachineConfig "HEL" = Enigma.Ok o1 /\
    Enigma.encryptString defaultMachineConfig "HELLO" = Enigma.Ok o2 /\
    o1 = fst (Enigma.encryptFrom m "HEL") /\
    o2 = fst (Enigma.encryptFrom m "HELLO") /\
    String.prefix o1 o2 = true /\
    (String.length o1 < String.length o2)%nat.
Proof.
  apply (C3_prefix_consistency App.getDefaultConfig _ "HEL" "HELLO" "LO").
  - vm_compute. reflexivity.
  - reflexivity.
  - discriminate.
Defined.

(** C4 (passthrough): for every valid MachineConfig and every text, letters
    of either case go through encryptLetter as their upper-case letter, every
    other character is emitted unchanged at its position without stepping,
    the ciphertext has the length of the text, and the letters are enciphered
    exactly as if the other characters were absent. *)
Theorem C4_passthrough raw c text :
  Enigma.ConfigValidator raw = Enigma.Ok c ->
  exists m out,
    Enigma.buildMachine c = Enigma.Ok m /\
    Enigma.encryptString c text = Enigma.Ok out /\
    out = fst (Enigma.encryptFrom m text) /\
    (forall m' ch x rest, Enigma.classify ch = Some x ->
       Enigma.encryptFrom m' (String ch rest) =
         (String (Enigma.charOfLetter (fst (Enigma.encryptLetter m' x)))
                 (fst (Enigma.encryptFrom (snd (Enigma.encryptLetter m' x)) rest)),
          snd (Enigma.encryptFrom (snd (Enigma.encryptLetter m' x)) rest))) /\
    (forall m' ch rest, Enigma.classify ch = None ->
       Enigma.encryptFrom m' (String ch rest) =
         (String ch (fst (Enigma.encryptFrom m' rest)),
          snd (Enigma.encryptFrom m' rest))) /\
    (forall ch, Enigma.classify (Js.upperChar ch) = Enigma.classify ch) /\
    Enigma.encryptString c (Js.toUpperCase text) = Enigma.Ok out /\
    String.length out = String.length text /\
    (forall i ch, String.get i text = Some ch -> Enigma.classify ch = None ->
       String.get i out = Some ch) /\
    Enigma.encryptString c (keepLetters text) = Enigma.Ok (keepLetters out).
Proof.
  intros H. destruct (encryptString_valid _ _ H) as [m [Hb [Hw He]]].
  exists m, (fst (Enigma.encryptFrom m text)).
  split; [exact Hb|]. split; [apply He|]. split; [reflexivity|].
  split; [intros; apply encryptFrom_letter; assumption|].
  split; [intros; apply encryptFrom_passthrough; assumption|].
  split; [apply classify_upperChar|].
  split; [rewrite He, encryptFrom_toUpperCase; reflexivity|].
  split; [apply encryptFrom_length|].
  split; [intros; apply encryptFrom_get; assumption|].
  rewrite He, encryptFrom_keepLetters by exact Hw. reflexivity.
Qed.

Lemma C4_passthrough_witness :
  exists out,
    Enigma.encryptString defaultMachineConfig "Hello, World" = Enigma.Ok out /\
    Enigma.encryptString defaultMachineConfig "HELLO, WORLD" = Enigma.Ok out /\
    String.length out = 12%nat /\
    String.get 5 out = Some ","%char /\
    String.get 6 out = Some " "%char /\
    Enigma.encryptString defaultMachineConfig "HelloWorld"
      = Enigma.Ok (keepLetters out).
Proof.
  destruct (C4_passthrough App.getDefaultConfig defaultMachineConfig "Hello, World")
    as (m & out & _ & He & _ & _ & _ & _ & Hu & Hlen & Hget & Hk).
  - vm_compute. reflexivity.
  - exists out. split; [exact He|]. split; [exact Hu|]. split; [exact Hlen|].
    split; [apply Hget; reflexivity|]. split; [apply Hget; reflexivity|exact Hk].
Defined.




Lemma encryptFrom_rounds text : forall m,
  snd (Enigma.encryptFrom m text) = Nat.iter (letterCount text) Enigma.stepping m.
Proof.
  induction text as [|c rest IH]; intros m; [reflexivity|].
  cbn [letterCount]. destruct (Enigma.classify c) as [x|] eqn:E.
  - rewrite (encryptFrom_letter _ _ _ _ E). cbn [snd Enigma.encryptLetter].
    rewrite IH, Nat.iter_succ. apply Nat.iter_swap.
  - rewrite (encryptFrom_passthrough _ _ _ E). cbn [snd]. apply IH.
Qed.

Lemma stepping_cases m :
  Enigma.stepping m =
    Enigma.mkMachine
      (if Enigma.atNotch (Enigma.middle m)
       then Enigma.stepped (Enigma.left m) else Enigma.left m)
      (if Enigma.atNotch (Enigma.middle m) then Enigma.stepped (Enigma.middle m)
       else if Enigma.atNotch (Enigma.right m) then Enigma.stepped (Enigma.middle m)
       else Enigma.middle m)
      (Enigma.stepped (Enigma.right m))
      (Enigma.reflector m) (Enigma.plugboard m).
Proof.
  unfold Enigma.stepping.
  destruct (Enigma.atNotch (Enigma.middle m)), (Enigma.atNotch (Enigma.right m));
    reflexivity.
Qed.

(** C6 (stepping): enciphering a letter first moves the rotors and then sends
    the letter through them.  The move reads both notch tests on the
    positions the round starts with: middle at its notch steps middle and
    left; otherwise right at its notch steps the middle; the right rotor
    always steps; nothing else changes.  A text moves the rotors once per
    letter and never for another character.  When the right rotor is at its
    notch and its turnover brings the middle rotor to its own notch, the
    middle rotor steps on that letter and on the next, and the left rotor
    only on the second; rotors I, II, III showing A, D, V do so on any two
    letters. *)
Theorem C6_stepping_transition :
  (forall m x,
     snd (Enigma.encryptLetter m x) =
       Enigma.mkMachine
         (if Enigma.atNotch (Enigma.middle m)
          then Enigma.stepped (Enigma.left m) else Enigma.left m)
         (if Enigma.atNotch (Enigma.middle m) then Enigma.stepped (Enigma.middle m)
          else if Enigma.atNotch (Enigma.right m) then Enigma.stepped (Enigma.middle m)
          else Enigma.middle m)
         (Enigma.stepped (Enigma.right m))
         (Enigma.reflector m) (Enigma.plugboard m) /\
     fst (Enigma.encryptLetter m x)
       = Enigma.signalPath (snd (Enigma.encryptLetter m x)) x) /\
  (forall r, Enigma.stepped r =
             Enigma.mkRotorState (Enigma.spec r)
               ((Enigma.position r + 1) mod 26) (Enigma.ring r)) /\
  (forall m text,
     snd (Enigma.encryptFrom m text)
       = Nat.iter (letterCount text) (fun k => snd (Enigma.encryptLetter k 0)) m) /\
  (forall m x y,
     Enigma.atNotch (Enigma.middle m) = false ->
     Enigma.atNotch (Enigma.right m) = true ->
     Enigma.atNotch (Enigma.stepped (Enigma.middle m)) = true ->
     let m1 := snd (Enigma.encryptLetter m x) in
     let m2 := snd (Enigma.encryptLetter m1 y) in
     Enigma.position (Enigma.middle m1) = Enigma.step (Enigma.position (Enigma.middle m)) /\
     Enigma.position (Enigma.left m1) = Enigma.position (Enigma.left m) /\
     Enigma.position (Enigma.middle m2) = Enigma.step (Enigma.position (Enigma.middle m1)) /\
     Enigma.position (Enigma.left m2) = Enigma.step (Enigma.position (Enigma.left m))) /\
  (exists c m,
     Enigma.ConfigValidator configADV = Enigma.Ok c /\
     Enigma.buildMachine c = Enigma.Ok m /\
     Enigma.positions m = (0, 3, 21) /\
     forall a b,
       Enigma.classify a <> None -> Enigma.classify b <> None ->
       Enigma.positions (snd (Enigma.encryptFrom m (String a "")))
         = (0, 4, 22) /\
       Enigma.positions (snd (Enigma.encryptFrom m (String a (String b ""))))
         = (1, 5, 23)).
Proof.
  split; [|split; [|split; [|split]]].
  - intros m x. cbn [Enigma.encryptLetter fst snd].
    split; [apply stepping_cases|reflexivity].
  - reflexivity.
  - intros m text. exact (encryptFrom_rounds text m).
  - intros m x y Hm Hr Hm' m1 m2. subst m2 m1. cbn [Enigma.encryptLetter snd].
    rewrite (stepping_cases (Enigma.stepping m)), (stepping_cases m).
    cbn [Enigma.left Enigma.middle Enigma.right]. rewrite Hm, Hr, Hm'.
    repeat split; reflexivity.
  - destruct (Enigma.ConfigValidator configADV) as [c|] eqn:Hc;
      [|vm_compute in Hc; discriminate].
    destruct (validator_builds _ _ Hc) as [m [Hb _]].
    exists c, m. split; [reflexivity|]. split; [exact Hb|].
    vm_compute in Hc. injection Hc as <-. vm_compute in Hb. injection Hb as <-.
    split; [reflexivity|].
    intros a b Ha Hb. rewrite !encryptFrom_rounds. cbn [letterCount].
    destruct (Enigma.classify a); [|contradiction].
    destruct (Enigma.classify b); [|contradiction].
    split; vm_compute; reflexivity.
Qed.

(** ** The front end: key presses and settled calls *)

Lemma testLetter_not_space key :
  Js.testLetter key = true -> String.eqb key " " = false.
Proof.
  intros H. destruct (String.eqb_spec key " ") as [->|]; [|reflexivity].
  vm_compute in H. discriminate.
Qed.

Lemma handleKeyPress_letter key s :
  Js.testLetter key = true ->
  App.handleKeyPress key s =
    App.mkState (App.originalText s ++ Js.toLowerCase key) (App.encryptedText s)
      (App.pending s
         ++ [App.processEncryption_request (App.originalText s ++ Js.toLowerCase key)])
      (App.invoked s
         ++ [App.processEncryption_request (App.originalText s ++ Js.toLowerCase key)]).
Proof.
  intros H. unfold App.handleKeyPress.
  rewrite (testLetter_not_space _ H), H. reflexivity.
Qed.

Lemma handleKeyPress_space s :
  App.handleKeyPress " " s =
    App.mkState (App.originalText s ++ " ") (App.encryptedText s ++ " ")
      (App.pending s) (App.invoked s).
Proof. reflexivity. Qed.

Lemma handleKeyPress_ignored key s :
  Js.testLetter key = false -> key <> " " -> App.handleKeyPress key s = s.
Proof.
  intros H Hs. unfold App.handleKeyPress.
  destruct (String.eqb_spec key " "); [contradiction|]. rewrite H. reflexivity.
Qed.

Lemma nth_error_snoc {A} (l : list A) x : nth_error (l ++ [x]) (List.length l) = Some x.
Proof. induction l as [|h t IH]; [reflexivity|exact IH]. Qed.

Lemma settle_fulfilled invoke i s call c :
  nth_error (App.pending s) i = Some call ->
  invoke call = Payload.Fulfilled c ->
  App.settle invoke i s =
    App.mkState (App.originalText s) c (App.removeAt i (App.pending s)) (App.invoked s).
Proof. intros Hn Hi. unfold App.settle. rewrite Hn, Hi. reflexivity. Qed.

Lemma settle_rejected invoke i s call :
  nth_error (App.pending s) i = Some call ->
  invoke call = Payload.Rejected ->
  App.settle invoke i s =
    App.mkState (App.originalText s) (App.encryptedText s ++ "?")
      (App.removeAt i (App.pending s)) (App.invoked s).
Proof. intros Hn Hi. unfold App.settle. rewrite Hn, Hi. reflexivity. Qed.

Lemma handleKeyPress_invoked key s :
  App.invoked (App.handleKeyPress key s) = App.invoked s \/
  exists text,
    App.invoked (App.handleKeyPress key s)
      = (App.invoked s ++ [App.processEncryption_request text])%list.
Proof.
  unfold App.handleKeyPress.
  destruct (String.eqb key " "); [left; reflexivity|].
  destruct (Js.testLetter key); [right; eexists; reflexivity|left; reflexivity].
Qed.

Lemma dispatch_invoked invoke e s :
  App.invoked (App.dispatch invoke e s) = App.invoked s \/
  exists text,
    App.invoked (App.dispatch invoke e s)
      = (App.invoked s ++ [App.processEncryption_request text])%list.
Proof.
  destruct e as [[row col| | |]|k|i]; cbn [App.dispatch App.onClick].
  - destruct (nth_error (nth row App.keyboardRows []) col); [|left; reflexivity].
    apply handleKeyPress_invoked.
  - apply handleKeyPress_invoked.
  - left. reflexivity.
  - left. reflexivity.
  - apply handleKeyPress_invoked.
  - left. unfold App.settle.
    destruct (nth_error (App.pending s) i); [|reflexivity].
    destruct (invoke r); reflexivity.
Qed.

Lemma run_invoked invoke (P : Payload.Request -> Prop) :
  (forall text, P (App.processEncryption_request text)) ->
  forall es s, Forall P (App.invoked s) -> Forall P (App.invoked (App.run invoke es s)).
Proof.
  intros HP. induction es as [|e es IH]; intros s Hs; [exact Hs|].
  cbn [App.run fold_left]. apply IH.
  destruct (dispatch_invoked invoke e s) as [E|[text E]]; rewrite E; [exact Hs|].
  apply Forall_app. split; [exact Hs|]. constructor; [apply HP|constructor].
Qed.

(** The accumulated plaintext holds lower-case letters and spaces only, the
    characters on which the ASCII reading of [toUpperCase] is exact. *)
Lemma typedText_app a b : typedText (a ++ b) = typedText a && typedText b.
Proof.
  induction a as [|c a IH]; [reflexivity|]. cbn. rewrite IH, andb_assoc. reflexivity.
Qed.

Lemma typedText_key key :
  Js.testLetter key = true -> typedText (Js.toLowerCase key) = true.
Proof.
  destruct key as [|c [|]]; cbn; try discriminate. intros H.
  rewrite andb_true_r. apply orb_true_iff. left. unfold Js.lowerChar.
  destruct (Js.isUpper c) eqn:U.
  - apply isUpper_iff in U. apply isLower_iff. rewrite code_chr; lia.
  - exact H.
Qed.

Lemma handleKeyPress_typed key s :
  typedText (App.originalText s) = true ->
  typedText (App.originalText (App.handleKeyPress key s)) = true.
Proof.
  intros H. unfold App.handleKeyPress.
  destruct (String.eqb key " ").
  - cbn [App.originalText]. rewrite typedText_app, H. reflexivity.
  - destruct (Js.testLetter key) eqn:T; [|exact H].
    cbn [negb App.originalText]. rewrite typedText_app, H, typedText_key; auto.
Qed.

Lemma run_typed invoke es : forall s,
  typedText (App.originalText s) = true ->
  typedText (App.originalText (App.run invoke es s)) = true.
Proof.
  induction es as [|e es IH]; intros s H; [exact H|].
  cbn [App.run fold_left]. apply IH.
  destruct e as [[row col| | |]|k|i]; cbn [App.dispatch App.onClick].
  - destruct (nth_error (nth row App.keyboardRows []) col); [|exact H].
    apply handleKeyPress_typed, H.
  - apply handleKeyPress_typed, H.
  - reflexivity.
  - reflexivity.
  - apply handleKeyPress_typed, H.
  - unfold App.settle. destruct (nth_error (App.pending s) i); [|exact H].
    destruct (invoke r); exact H.
Qed.

(** The engine model rejects what its validator refuses. *)
Lemma backEnd_rejects_invalid call e :
  Enigma.ConfigValidator (Payload.config call) = Enigma.Err e ->
  backEnd call = Payload.Rejected.
Proof.
  intros H. unfold backEnd, Enigma.enigma_process_string.
  rewrite H. cbn [Enigma.bind]. destruct (String.eqb _ _); reflexivity.
Qed.

(** Every call the front end issues is accepted by the engine model. *)
Lemma backEnd_fulfils_front_end text :
  exists encrypted,
    backEnd (App.processEncryption_request text) = Payload.Fulfilled encrypted /\
    String.length encrypted = String.length text.
Proof.
  destruct (encryptString_valid _ _ validated_default) as [m [_ [_ He]]].
  exists (fst (Enigma.encryptFrom m (Js.toUpperCase text))). split.
  - unfold backEnd, App.processEncryption_request, Enigma.enigma_process_string.
    cbn [Payload.command Payload.config Payload.text].
    rewrite validated_default. cbn [Enigma.bind]. rewrite He. reflexivity.
  - rewrite encryptFrom_toUpperCase. apply encryptFrom_length.
Qed.

Lemma keyboardRows_letters :
  Forall (Forall (fun key => Js.testLetter key = true)) App.keyboardRows.
Proof. repeat constructor. Qed.

(** A failed call leaves ["?"]; the next successful letter replaces the whole
    display. *)
Example placeholder_overwritten :
  App.encryptedText
    (App.run flaky [App.KeyDown "h"; App.Settle 0] App.initial) = "?" /\
  App.encryptedText
    (App.run flaky [App.KeyDown "h"; App.Settle 0; App.KeyDown "e"; App.Settle 0]
       App.initial) = "IL".
Proof. split; vm_compute; reflexivity. Qed.

(** ** Claims about the front end *)

(** C1, as stated, fails on the space key: the plaintext grows by a space and
    no call is issued. *)
Lemma C1_counterexample_space :
  App.originalText (App.handleKeyPress " " App.initial) = " " /\
  App.invoked (App.handleKeyPress " " App.initial) = [] /\
  ~ invokesWithAccumulatedText " " App.initial.
Proof.
  split; [reflexivity|]. split; [reflexivity|].
  unfold invokesWithAccumulatedText. cbn. discriminate.
Qed.

(** C1 (amended): on every letter keystroke the front end issues one call
    [enigma_process_string] carrying the default configuration and the whole
    accumulated plaintext, new letter included, in upper case; when that call
    is fulfilled the display is the returned ciphertext.  A space keystroke
    appends a space to both texts and issues no call. *)
Theorem C1_letter_keystroke invoke key s :
  Js.testLetter key = true ->
  let s' := App.handleKeyPress key s in
  let call := App.processEncryption_request (App.originalText s') in
  App.originalText s' = App.originalText s ++ Js.toLowerCase key /\
  App.invoked s' = (App.invoked s ++ [call])%list /\
  App.pending s' = (App.pending s ++ [call])%list /\
  Payload.command call = "enigma_process_string" /\
  Payload.config call = App.getDefaultConfig /\
  Payload.text call = Js.toUpperCase (App.originalText s ++ Js.toLowerCase key) /\
  (forall c, invoke call = Payload.Fulfilled c ->
     App.encryptedText (App.keystroke invoke key s) = c) /\
  App.handleKeyPress " " s =
    App.mkState (App.originalText s ++ " ") (App.encryptedText s ++ " ")
      (App.pending s) (App.invoked s).
Proof.
  intros H s' call. subst call s'. rewrite (handleKeyPress_letter _ _ H).
  cbn [App.originalText App.invoked App.pending].
  repeat (split; [reflexivity|]). split; [|reflexivity].
  intros c Hc. unfold App.keystroke. rewrite (handleKeyPress_letter _ _ H).
  erewrite settle_fulfilled; [reflexivity| |exact Hc].
  cbn [App.pending]. apply nth_error_snoc.
Qed.

Lemma C1_letter_keystroke_witness :
  App.invoked (App.handleKeyPress "L" (App.mkState "hel" "ILB" [] []))
    = [Payload.mkRequest "enigma_process_string" App.getDefaultConfig "HELL"] /\
  App.encryptedText (App.keystroke backEnd "L" (App.mkState "hel" "ILB" [] []))
    = "ILBD".
Proof.
  destruct (C1_letter_keystroke backEnd "L" (App.mkState "hel" "ILB" [] []) eq_refl)
    as (_ & Hi & _ & _ & _ & _ & Hd & _).
  split; [exact Hi|]. apply Hd. vm_compute. reflexivity.
Defined.

(** C7: whatever is clicked or typed, every call carries the one default
    configuration: rotors I, II, III at position A with ring A, reflector B
    and an empty plugboard string; no event changes it. *)
Theorem C7_fixed_configuration invoke es :
  Forall (fun call => Payload.config call = App.getDefaultConfig)
    (App.invoked (App.run invoke es App.initial)) /\
  App.getDefaultConfig =
    Payload.mkConfig
      (Payload.mkRotorInit "I" "A" "A", Payload.mkRotorInit "II" "A" "A",
       Payload.mkRotorInit "III" "A" "A") "B" "" /\
  (let '(r0, r1, r2) := Payload.rotors App.getDefaultConfig in
   Payload.ring r0 = "A" /\ Payload.ring r1 = "A" /\ Payload.ring r2 = "A").
Proof.
  split; [|split; [reflexivity|cbn; auto]].
  apply run_invoked; [reflexivity|constructor].
Qed.

(** C8: a failed call arrives as a rejection, never as a ciphertext, and the
    front end then appends exactly one ["?"] to the ciphertext on display and
    changes nothing else of it. *)
Theorem C8_failure_placeholder invoke i s call :
  nth_error (App.pending s) i = Some call ->
  invoke call = Payload.Rejected ->
  let s' := App.settle invoke i s in
  App.encryptedText s' = App.encryptedText s ++ "?" /\
  String.length (App.encryptedText s') = S (String.length (App.encryptedText s)) /\
  String.prefix (App.encryptedText s) (App.encryptedText s') = true /\
  App.originalText s' = App.originalText s /\
  (forall c, invoke call <> Payload.Fulfilled c).
Proof.
  intros Hn Hr s'. subst s'. rewrite (settle_rejected _ _ _ _ Hn Hr).
  cbn [App.encryptedText App.originalText].
  split; [reflexivity|]. split; [|split; [apply prefix_append|split; [reflexivity|]]].
  - rewrite length_append. cbn. lia.
  - intros c. rewrite Hr. discriminate.
Qed.

Lemma C8_failure_placeholder_witness :
  App.encryptedText
    (App.settle unavailable 0 (App.handleKeyPress "b" (App.mkState "a" "B" [] [])))
    = "B?".
Proof.
  destruct (C8_failure_placeholder unavailable 0
              (App.handleKeyPress "b" (App.mkState "a" "B" [] []))
              (App.processEncryption_request "ab") eq_refl eq_refl)
    as (He & _).
  exact He.
Defined.

(** C9: a key that is neither a single ASCII letter nor the space leaves
    plaintext, displayed ciphertext, calls in flight and calls issued as they
    were, through the virtual keyboard's handler and through the physical
    keyboard's. *)
Theorem C9_other_keys_ignored invoke key s :
  Js.testLetter key = false -> key <> " " ->
  App.onKeyPress key s = s /\
  App.handlePhysicalKeyPress key s = s /\
  App.dispatch invoke (App.KeyDown key) s = s /\
  App.invoked (App.handleKeyPress key s) = App.invoked s.
Proof.
  intros H Hs. unfold App.onKeyPress, App.handlePhysicalKeyPress.
  cbn [App.dispatch]. unfold App.handlePhysicalKeyPress.
  rewrite (handleKeyPress_ignored _ _ H Hs). auto.
Qed.

Lemma C9_other_keys_ignored_witness :
  App.dispatch backEnd (App.KeyDown "Enter") (App.mkState "hel" "ILB" [] [])
    = App.mkState "hel" "ILB" [] [].
Proof.
  destruct (C9_other_keys_ignored backEnd "Enter" (App.mkState "hel" "ILB" [] []))
    as (_ & _ & Hk & _).
  - reflexivity.
  - discriminate.
  - exact Hk.
Defined.

(** C10: when the call of a letter keystroke is fulfilled, the display is
    exactly the string returned for the whole accumulated text, whatever was
    displayed before, ["?"] placeholders included; the same holds for any
    call in flight that is fulfilled. *)
Theorem C10_display_replaced invoke key s c :
  Js.testLetter key = true ->
  invoke (App.processEncryption_request (App.originalText s ++ Js.toLowerCase key))
    = Payload.Fulfilled c ->
  let s' := App.keystroke invoke key s in
  App.encryptedText s' = c /\
  App.originalText s' = App.originalText s ++ Js.toLowerCase key /\
  invoke (App.processEncryption_request (App.originalText s')) = Payload.Fulfilled c /\
  (forall i t call c',
     nth_error (App.pending t) i = Some call ->
     invoke call = Payload.Fulfilled c' ->
     App.encryptedText (App.settle invoke i t) = c').
Proof.
  intros H Hc s'.
  assert (E : s' = App.mkState (App.originalText s ++ Js.toLowerCase key) c
                     (App.removeAt (List.length (App.pending s))
                        (App.pending s
                           ++ [App.processEncryption_request
                                 (App.originalText s ++ Js.toLowerCase key)]))
                     (App.invoked s
                        ++ [App.processEncryption_request
                              (App.originalText s ++ Js.toLowerCase key)])).
  { subst s'. unfold App.keystroke. rewrite (handleKeyPress_letter _ _ H).
    erewrite settle_fulfilled; [reflexivity| |exact Hc].
    cbn [App.pending]. apply nth_error_snoc. }
  rewrite E. cbn [App.encryptedText App.originalText].
  split; [reflexivity|]. split; [reflexivity|]. split; [exact Hc|].
  intros i t call c' Hn Hf. rewrite (settle_fulfilled _ _ _ _ _ Hn Hf). reflexivity.
Qed.

Lemma C10_display_replaced_witness :
  App.encryptedText (App.keystroke backEnd "e" (App.mkState "h" "?" [] [])) = "IL".
Proof.
  destruct (C10_display_replaced backEnd "e" (App.mkState "h" "?" [] []) "IL")
    as (He & _).
  - reflexivity.
  - vm_compute. reflexivity.
  - exact He.
Defined.

(** ** Further properties of the front end *)

Ltac each_char c :=
  destruct c as [[|] [|] [|] [|] [|] [|] [|] [|]].

Lemma lowerChar_letter c :
  Js.isUpper (Js.lowerChar c) || Js.isLower (Js.lowerChar c)
    = Js.isUpper c || Js.isLower c.
Proof. each_char c; vm_compute; reflexivity. Qed.

Lemma upperChar_letter c :
  Js.isUpper (Js.upperChar c) || Js.isLower (Js.upperChar c)
    = Js.isUpper c || Js.isLower c.
Proof. each_char c; vm_compute; reflexivity. Qed.

Lemma lowerChar_lowerChar c : Js.lowerChar (Js.lowerChar c) = Js.lowerChar c.
Proof. each_char c; vm_compute; reflexivity. Qed.

Lemma lowerChar_upperChar c : Js.lowerChar (Js.upperChar c) = Js.lowerChar c.
Proof. each_char c; vm_compute; reflexivity. Qed.

Lemma lowerChar_space c :
  Ascii.eqb (Js.lowerChar c) " " = Ascii.eqb c " ".
Proof. each_char c; vm_compute; reflexivity. Qed.

Lemma upperChar_space c :
  Ascii.eqb (Js.upperChar c) " " = Ascii.eqb c " ".
Proof. each_char c; vm_compute; reflexivity. Qed.

Lemma long_key_not_space a b rest :
  String.eqb (String a (String b rest)) " " = false.
Proof. cbn. destruct (Ascii.eqb a " "); reflexivity. Qed.

Lemma handleKeyPress_long a b rest s :
  App.handleKeyPress (String a (String b rest)) s = s.
Proof. unfold App.handleKeyPress. rewrite long_key_not_space. reflexivity. Qed.

Lemma handleKeyPress_char c s :
  App.handleKeyPress (String c "") s =
    if Ascii.eqb c " " then
      App.mkState (App.originalText s ++ " ") (App.encryptedText s ++ " ")
        (App.pending s) (App.invoked s)
    else if Js.isUpper c || Js.isLower c then
      App.mkState (App.originalText s ++ String (Js.lowerChar c) "")
        (App.encryptedText s)
        (App.pending s ++ [App.processEncryption_request
                             (App.originalText s ++ String (Js.lowerChar c) "")])
        (App.invoked s ++ [App.processEncryption_request
                             (App.originalText s ++ String (Js.lowerChar c) "")])
    else s.
Proof.
  unfold App.handleKeyPress. cbn [String.eqb Js.testLetter].
  destruct (Ascii.eqb c " "); [reflexivity|].
  destruct (Js.isUpper c || Js.isLower c); reflexivity.
Qed.

(** The case of a letter key does not matter: the key, its lower-case form
    and its upper-case form all have the same effect, so the key caps of the
    virtual keyboard and the letters of a physical one are interchangeable. *)
Theorem handleKeyPress_case_insensitive key s :
  Js.testLetter key = true ->
  App.handleKeyPress (Js.toLowerCase key) s = App.handleKeyPress key s /\
  App.handleKeyPress (Js.toUpperCase key) s = App.handleKeyPress key s.
Proof.
  destruct key as [|c [|b rest]]; cbn [Js.testLetter]; try discriminate.
  intros _. unfold Js.toLowerCase, Js.toUpperCase. cbn [Js.mapString].
  rewrite !handleKeyPress_char.
  rewrite lowerChar_space, upperChar_space, lowerChar_letter, upperChar_letter.
  rewrite lowerChar_lowerChar, lowerChar_upperChar. split; reflexivity.
Qed.

Lemma handleKeyPress_case_insensitive_witness :
  App.handleKeyPress "q" (App.mkState "hel" "ILB" [] [])
    = App.handleKeyPress "Q" (App.mkState "hel" "ILB" [] []).
Proof.
  destruct (handleKeyPress_case_insensitive "Q" (App.mkState "hel" "ILB" [] []) eq_refl)
    as [Hl _].
  exact Hl.
Defined.

(** ** Typing: what a sequence of events leaves behind *)

Lemma append_assoc (a b c : string) : (a ++ b) ++ c = a ++ (b ++ c).
Proof. induction a as [|x a IH]; [reflexivity|]. cbn. rewrite IH. reflexivity. Qed.

Lemma append_empty (a : string) : a ++ "" = a.
Proof. induction a as [|x a IH]; [reflexivity|]. cbn. rewrite IH. reflexivity. Qed.

Lemma length_mapString f s : String.length (Js.mapString f s) = String.length s.
Proof. induction s as [|c s IH]; [reflexivity|]. cbn. rewrite IH. reflexivity. Qed.

Lemma handleKeyPress_originalText key s :
  App.originalText (App.handleKeyPress key s)
    = App.originalText s ++ (if accepted key then Js.toLowerCase key else "").
Proof.
  unfold App.handleKeyPress, accepted.
  destruct (String.eqb_spec key " ") as [->|Hk]; cbn [orb].
  - reflexivity.
  - destruct (Js.testLetter key); cbn [negb App.originalText];
      [reflexivity|symmetry; apply append_empty].
Qed.

Lemma handleKeyPress_calls key s :
  List.length (App.invoked (App.handleKeyPress key s))
    = (List.length (App.invoked s) + if Js.testLetter key then 1 else 0)%nat.
Proof.
  unfold App.handleKeyPress.
  destruct (String.eqb_spec key " ") as [->|Hk]; [cbn; lia|].
  destruct (Js.testLetter key); cbn [negb App.invoked]; [|lia].
  rewrite length_app. reflexivity.
Qed.

Lemma dispatch_key invoke e k s :
  keyOf e = Some k -> App.dispatch invoke e s = App.handleKeyPress k s.
Proof.
  destruct e as [[row col| | |]|key|i]; cbn [keyOf App.dispatch App.onClick];
    try discriminate.
  - intros ->. reflexivity.
  - intros [= <-]. reflexivity.
  - intros [= <-]. reflexivity.
Qed.

Lemma settle_frame invoke i s :
  App.originalText (App.settle invoke i s) = App.originalText s /\
  App.invoked (App.settle invoke i s) = App.invoked s.
Proof.
  unfold App.settle. destruct (nth_error (App.pending s) i); [|auto].
  destruct (invoke r); auto.
Qed.

Lemma dispatch_no_key invoke e s :
  keyOf e = None ->
  App.invoked (App.dispatch invoke e s) = App.invoked s /\
  (notClear e = true ->
   App.originalText (App.dispatch invoke e s) = App.originalText s).
Proof.
  destruct e as [[row col| | |]|key|i]; cbn [keyOf App.dispatch App.onClick notClear];
    try discriminate.
  - intros ->. auto.
  - intros _. split; [reflexivity|discriminate].
  - intros _. split; [reflexivity|discriminate].
  - intros _. destruct (settle_frame invoke i s). auto.
Qed.

(** Typing accumulates: as long as no clear button is clicked, the plaintext
    after any sequence of clicks, key presses and settling calls is the
    earlier plaintext followed by the accepted keys in lower case, in the
    order they came; every other key leaves no trace. *)
Theorem typing_accumulates invoke es s :
  forallb notClear es = true ->
  App.originalText (App.run invoke es s)
    = App.originalText s ++ typedBy (keysOf es).
Proof.
  revert s. induction es as [|e es IH]; intros s H.
  - symmetry. apply append_empty.
  - cbn [forallb] in H. apply andb_true_iff in H. destruct H as [He H].
    cbn [App.run fold_left]. fold (App.run invoke es (App.dispatch invoke e s)).
    rewrite IH by exact H. cbn [keysOf].
    destruct (keyOf e) as [k|] eqn:K.
    + rewrite (dispatch_key _ _ _ _ K), handleKeyPress_originalText.
      cbn [typedBy]. destruct (accepted k).
      * apply append_assoc.
      * rewrite append_empty. reflexivity.
    + destruct (dispatch_no_key invoke e s K) as [_ Ho]. rewrite Ho by exact He.
      reflexivity.
Qed.

Lemma typing_accumulates_witness :
  App.originalText
    (App.run echo
       [App.KeyDown "h"; App.KeyDown "Shift"; App.Click (App.KeyButton 0 8);
        App.Settle 0; App.Click App.SpaceButton; App.KeyDown "W"] App.initial)
    = "ho w".
Proof.
  apply (typing_accumulates echo
           [App.KeyDown "h"; App.KeyDown "Shift"; App.Click (App.KeyButton 0 8);
            App.Settle 0; App.Click App.SpaceButton; App.KeyDown "W"] App.initial).
  reflexivity.
Defined.

(** One call per letter: along any sequence of events the number of calls
    issued grows by exactly the number of letter keys among them; spaces,
    other keys, clear clicks and settling calls issue none. *)
Theorem one_call_per_letter invoke es s :
  List.length (App.invoked (App.run invoke es s))
    = (List.length (App.invoked s)
       + List.length (filter Js.testLetter (keysOf es)))%nat.
Proof.
  revert s. induction es as [|e es IH]; intros s.
  - cbn. lia.
  - cbn [App.run fold_left]. fold (App.run invoke es (App.dispatch invoke e s)).
    rewrite IH. cbn [keysOf].
    destruct (keyOf e) as [k|] eqn:K.
    + rewrite (dispatch_key _ _ _ _ K), handleKeyPress_calls. cbn [filter].
      destruct (Js.testLetter k); cbn [List.length]; lia.
    + destruct (dispatch_no_key invoke e s K) as [Hi _]. rewrite Hi. reflexivity.
Qed.

(** ** What the engine is ever sent *)

Lemma upperChar_shouted c :
  Js.isLower c || (Js.code c =? 32) = true ->
  Js.isUpper (Js.upperChar c) || (Js.code (Js.upperChar c) =? 32) = true.
Proof. each_char c; vm_compute; intros H; try reflexivity; discriminate H. Qed.

Lemma toUpperCase_shouted t :
  typedText t = true -> shoutedText (Js.toUpperCase t) = true.
Proof.
  unfold Js.toUpperCase. induction t as [|c t IH]; [reflexivity|].
  cbn [typedText Js.mapString shoutedText]. intros H.
  apply andb_true_iff in H. destruct H as [Hc Ht].
  rewrite (upperChar_shouted _ Hc), IH by exact Ht. reflexivity.
Qed.

Lemma handleKeyPress_shouted key s :
  typedText (App.originalText s) = true ->
  Forall (fun call => shoutedText (Payload.text call) = true) (App.invoked s) ->
  Forall (fun call => shoutedText (Payload.text call) = true)
    (App.invoked (App.handleKeyPress key s)).
Proof.
  intros Ht Hs. pose proof (handleKeyPress_typed key s Ht) as Ht'.
  unfold App.handleKeyPress in *.
  destruct (String.eqb key " "); [exact Hs|].
  destruct (Js.testLetter key); [|exact Hs].
  cbn [negb App.invoked App.originalText] in *.
  apply Forall_app. split; [exact Hs|]. constructor; [|constructor].
  cbn [App.processEncryption_request Payload.text]. apply toUpperCase_shouted, Ht'.
Qed.

Lemma dispatch_typed invoke e s :
  typedText (App.originalText s) = true ->
  typedText (App.originalText (App.dispatch invoke e s)) = true.
Proof.
  intros H. destruct (keyOf e) as [k|] eqn:K.
  - rewrite (dispatch_key _ _ _ _ K). apply handleKeyPress_typed, H.
  - destruct e as [[row col| | |]|key|i]; cbn [keyOf] in K; try discriminate.
    + cbn [App.dispatch App.onClick]. rewrite K. exact H.
    + reflexivity.
    + reflexivity.
    + destruct (settle_frame invoke i s) as [Ho _]. cbn [App.dispatch].
      rewrite Ho. exact H.
Qed.

Lemma run_shouted invoke es : forall s,
  typedText (App.originalText s) = true ->
  Forall (fun call => shoutedText (Payload.text call) = true) (App.invoked s) ->
  Forall (fun call => shoutedText (Payload.text call) = true)
    (App.invoked (App.run invoke es s)).
Proof.
  induction es as [|e es IH]; intros s Ht Hs; [exact Hs|].
  cbn [App.run fold_left]. fold (App.run invoke es (App.dispatch invoke e s)).
  apply IH; [apply dispatch_typed, Ht|].
  destruct (keyOf e) as [k|] eqn:K.
  - rewrite (dispatch_key _ _ _ _ K). apply handleKeyPress_shouted; assumption.
  - destruct (dispatch_no_key invoke e s K) as [Hi _]. rewrite Hi. exact Hs.
Qed.

(** Whatever is clicked or typed, in any order and with calls settling at any
    time, the plaintext holds lower-case letters and spaces only, and every
    text sent to the engine holds upper-case letters and spaces only: the
    engine never receives a lower-case letter, a digit, a line break or
    punctuation from this front end. *)
Theorem engine_input_alphabet invoke es :
  typedText (App.originalText (App.run invoke es App.initial)) = true /\
  Forall (fun call => shoutedText (Payload.text call) = true)
    (App.invoked (App.run invoke es App.initial)).
Proof.
  split.
  - apply run_typed. reflexivity.
  - apply run_shouted; [reflexivity|constructor].
Qed.

(** ** Calls in flight: clearing and settling out of order *)

Lemma handleClear_pending s : App.pending (App.handleClear s) = App.pending s.
Proof. reflexivity. Qed.

(** Clearing does not cancel a call in flight: when such a call settles after
    a clear, the notepad stays empty while the panel shows the ciphertext of
    the cleared text, or a lone question mark if the call failed. *)
Theorem clear_does_not_cancel invoke i s call :
  nth_error (App.pending s) i = Some call ->
  App.originalText (App.settle invoke i (App.handleClear s)) = "" /\
  App.encryptedText (App.settle invoke i (App.handleClear s)) =
    match invoke call with
    | Payload.Fulfilled encrypted => encrypted
    | Payload.Rejected => "?"
    end.
Proof.
  intros H. unfold App.settle. rewrite handleClear_pending, H.
  destruct (invoke call); split; reflexivity.
Qed.

Lemma clear_does_not_cancel_witness :
  App.originalText
    (App.run echo [App.KeyDown "a"; App.Click App.NotepadClearButton; App.Settle 0]
       App.initial) = "" /\
  App.encryptedText
    (App.run echo [App.KeyDown "a"; App.Click App.NotepadClearButton; App.Settle 0]
       App.initial) = "A".
Proof.
  exact (clear_does_not_cancel echo 0 (App.handleKeyPress "a" App.initial)
           (App.processEncryption_request "a") eq_refl).
Defined.

Lemma nth_error_two {A} (l : list A) a b :
  nth_error (l ++ [a; b]) (List.length l) = Some a /\
  nth_error (l ++ [a; b]) (S (List.length l)) = Some b.
Proof. induction l as [|h t IH]; [split; reflexivity|exact IH]. Qed.

Lemma settle_at invoke i o e p v call :
  nth_error p i = Some call ->
  App.settle invoke i (App.mkState o e p v) =
    App.processEncryption_settle (invoke call)
      (App.mkState o e (App.removeAt i p) v).
Proof. intros H. unfold App.settle. cbn [App.pending]. rewrite H. reflexivity. Qed.

Lemma removeAt_cons {A} i (h : A) t :
  App.removeAt (S i) (h :: t) = h :: App.removeAt i t.
Proof. reflexivity. Qed.

Lemma removeAt_two {A} (l : list A) a b :
  App.removeAt (List.length l) (l ++ [a; b]) = (l ++ [b])%list /\
  App.removeAt (S (List.length l)) (l ++ [a; b]) = (l ++ [a])%list.
Proof.
  induction l as [|h t [IH1 IH2]]; [split; reflexivity|].
  cbn [List.length app]. rewrite !removeAt_cons, IH1, IH2. split; reflexivity.
Qed.

(** The panel shows the call that settled last, not the call that was issued
    last: if two letters are typed and the second call is fulfilled before
    the first, the panel ends on the ciphertext of the text without its last
    letter, although the notepad holds both letters; settled in the order
    issued, it ends on the ciphertext of the whole text. *)
Theorem last_settled_wins invoke k1 k2 s c1 c2 :
  Js.testLetter k1 = true -> Js.testLetter k2 = true ->
  invoke (App.processEncryption_request
            (App.originalText s ++ Js.toLowerCase k1)) = Payload.Fulfilled c1 ->
  invoke (App.processEncryption_request
            ((App.originalText s ++ Js.toLowerCase k1) ++ Js.toLowerCase k2))
    = Payload.Fulfilled c2 ->
  let n := List.length (App.pending s) in
  let typed := App.handleKeyPress k2 (App.handleKeyPress k1 s) in
  App.encryptedText (App.settle invoke n (App.settle invoke (S n) typed)) = c1 /\
  App.encryptedText (App.settle invoke n (App.settle invoke n typed)) = c2 /\
  App.originalText (App.settle invoke n (App.settle invoke (S n) typed))
    = (App.originalText s ++ Js.toLowerCase k1) ++ Js.toLowerCase k2.
Proof.
  intros H1 H2 Hc1 Hc2 n typed. subst n typed.
  rewrite (handleKeyPress_letter _ _ H2), (handleKeyPress_letter _ _ H1).
  cbn [App.originalText App.encryptedText App.pending App.invoked].
  remember (App.processEncryption_request
              (App.originalText s ++ Js.toLowerCase k1)) as q1 eqn:E1.
  remember (App.processEncryption_request
              ((App.originalText s ++ Js.toLowerCase k1) ++ Js.toLowerCase k2))
    as q2 eqn:E2.
  remember (App.pending s) as p eqn:Ep.
  replace ((p ++ [q1]) ++ [q2])%list with (p ++ [q1; q2])%list
    by (rewrite <- app_assoc; reflexivity).
  destruct (nth_error_two p q1 q2) as [N0 N1].
  destruct (removeAt_two p q1 q2) as [R0 R1].
  rewrite (settle_at _ _ _ _ _ _ _ N1), (settle_at _ _ _ _ _ _ _ N0).
  rewrite Hc1, Hc2, R0, R1. cbn [App.processEncryption_settle].
  cbn [App.originalText App.encryptedText App.pending App.invoked].
  rewrite !(settle_at _ _ _ _ _ _ _ (nth_error_snoc p _)).
  rewrite Hc1, Hc2. repeat split; reflexivity.
Qed.

Lemma last_settled_wins_witness :
  App.encryptedText
    (App.run echo [App.KeyDown "h"; App.KeyDown "i"; App.Settle 1; App.Settle 0]
       App.initial) = "H" /\
  App.encryptedText
    (App.run echo [App.KeyDown "h"; App.KeyDown "i"; App.Settle 0; App.Settle 0]
       App.initial) = "HI" /\
  App.originalText
    (App.run echo [App.KeyDown "h"; App.KeyDown "i"; App.Settle 1; App.Settle 0]
       App.initial) = "hi".
Proof.
  exact (last_settled_wins echo "h" "i" App.initial "H" "HI"
           eq_refl eq_refl eq_refl eq_refl).
Defined.

(** ** Typing with every call settled before the next action *)

Lemma nth_error_end {A} (l : list A) : nth_error l (List.length l) = None.
Proof. apply nth_error_None. lia. Qed.

Lemma removeAt_snoc {A} (l : list A) x : App.removeAt (List.length l) (l ++ [x]) = l.
Proof.
  induction l as [|h t IH]; [reflexivity|].
  cbn [List.length app]. rewrite removeAt_cons, IH. reflexivity.
Qed.

Lemma keystroke_space invoke s :
  App.keystroke invoke " " s =
    App.mkState (App.originalText s ++ " ") (App.encryptedText s ++ " ")
      (App.pending s) (App.invoked s).
Proof.
  unfold App.keystroke. rewrite handleKeyPress_space.
  unfold App.settle. cbn [App.pending]. rewrite nth_error_end. reflexivity.
Qed.

Lemma keystroke_ignored invoke key s :
  accepted key = false -> App.keystroke invoke key s = s.
Proof.
  unfold accepted. intros H. apply orb_false_iff in H. destruct H as [Hs Hl].
  unfold App.keystroke. rewrite handleKeyPress_ignored.
  - unfold App.settle. rewrite nth_error_end. reflexivity.
  - exact Hl.
  - intros ->. discriminate Hs.
Qed.

Lemma keystroke_letter invoke key s :
  Js.testLetter key = true ->
  App.keystroke invoke key s =
    App.processEncryption_settle
      (invoke (App.processEncryption_request
                 (App.originalText s ++ Js.toLowerCase key)))
      (App.mkState (App.originalText s ++ Js.toLowerCase key)
         (App.encryptedText s) (App.pending s)
         (App.invoked s
            ++ [App.processEncryption_request
                  (App.originalText s ++ Js.toLowerCase key)])).
Proof.
  intros H. unfold App.keystroke. rewrite (handleKeyPress_letter _ _ H).
  rewrite (settle_at _ _ _ _ _ _ _ (nth_error_snoc (App.pending s) _)).
  rewrite removeAt_snoc. reflexivity.
Qed.

Lemma session_cons invoke a acts s :
  session invoke (a :: acts) s = session invoke acts (act invoke a s).
Proof. reflexivity. Qed.

Lemma accepted_cases key :
  key = " " \/ Js.testLetter key = true \/ accepted key = false.
Proof.
  unfold accepted. destruct (String.eqb_spec key " "); [auto|].
  destruct (Js.testLetter key); auto.
Qed.

Lemma masked_letter c :
  Js.isUpper c || Js.isLower c = true -> masked (Js.lowerChar c) = Js.chr 63.
Proof. each_char c; vm_compute; intros H; try reflexivity; discriminate H. Qed.

Lemma masked_key key :
  Js.testLetter key = true -> Js.mapString masked (Js.toLowerCase key) = "?".
Proof.
  destruct key as [|c [|b rest]]; cbn [Js.testLetter]; try discriminate.
  intros H. unfold Js.toLowerCase. cbn [Js.mapString].
  rewrite (masked_letter _ H). reflexivity.
Qed.

Lemma mapString_append f a b :
  Js.mapString f (a ++ b) = Js.mapString f a ++ Js.mapString f b.
Proof. induction a as [|c a IH]; [reflexivity|]. cbn. rewrite IH. reflexivity. Qed.

(** With the back end down, typing still keeps the panel in step: each letter
    adds one question mark, each space adds a space, other keys add nothing,
    so the panel shows the notepad's text with every letter masked. *)
Theorem dead_back_end invoke keys s :
  (forall call, invoke call = Payload.Rejected) ->
  App.originalText (session invoke (map Press keys) s)
    = App.originalText s ++ typedBy keys /\
  App.encryptedText (session invoke (map Press keys) s)
    = App.encryptedText s ++ Js.mapString masked (typedBy keys).
Proof.
  intros Hdown. revert s. induction keys as [|k keys IH]; intros s.
  - cbn. rewrite !append_empty. split; reflexivity.
  - cbn [map]. rewrite session_cons. cbn [act].
    destruct (IH (App.keystroke invoke k s)) as [Ho He]. rewrite Ho, He.
    cbn [typedBy].
    destruct (accepted_cases k) as [->|[Hl|Hn]].
    + rewrite keystroke_space. cbn [App.originalText App.encryptedText accepted].
      change (accepted " ") with true. cbn iota.
      rewrite mapString_append, <- !append_assoc. split; reflexivity.
    + rewrite (keystroke_letter _ _ _ Hl), Hdown.
      cbn [App.processEncryption_settle App.originalText App.encryptedText].
      unfold accepted. rewrite Hl, orb_true_r.
      rewrite mapString_append, (masked_key _ Hl), <- !append_assoc.
      split; reflexivity.
    + rewrite (keystroke_ignored _ _ _ Hn), Hn. split; reflexivity.
Qed.

Lemma dead_back_end_witness :
  App.originalText (session unavailable (map Press ["H"; "i"; " "; "Tab"; "u"]) App.initial)
    = "hi u" /\
  App.encryptedText (session unavailable (map Press ["H"; "i"; " "; "Tab"; "u"]) App.initial)
    = "?? ?".
Proof.
  apply (dead_back_end unavailable ["H"; "i"; " "; "Tab"; "u"] App.initial).
  intros call. reflexivity.
Defined.

Lemma act_aligned invoke a s :
  (forall call c, invoke call = Payload.Fulfilled c ->
     String.length c = String.length (Payload.text call)) ->
  String.length (App.encryptedText s) = String.length (App.originalText s) ->
  String.length (App.encryptedText (act invoke a s))
    = String.length (App.originalText (act invoke a s)).
Proof.
  intros Hlen Hs. destruct a as [k|]; cbn [act]; [|reflexivity].
  destruct (accepted_cases k) as [->|[Hl|Hn]].
  - rewrite keystroke_space. cbn [App.originalText App.encryptedText].
    rewrite !length_append, Hs. reflexivity.
  - rewrite (keystroke_letter _ _ _ Hl).
    destruct (invoke _) as [c|] eqn:E;
      cbn [App.processEncryption_settle App.originalText App.encryptedText].
    + rewrite (Hlen _ _ E). cbn [App.processEncryption_request Payload.text].
      apply length_mapString.
    + rewrite !length_append, Hs.
      destruct k as [|c [|b rest]]; cbn [Js.testLetter] in Hl; try discriminate.
      reflexivity.
  - rewrite (keystroke_ignored _ _ _ Hn). exact Hs.
Qed.

Lemma session_aligned invoke acts : forall s,
  (forall call c, invoke call = Payload.Fulfilled c ->
     String.length c = String.length (Payload.text call)) ->
  String.length (App.encryptedText s) = String.length (App.originalText s) ->
  String.length (App.encryptedText (session invoke acts s))
    = String.length (App.originalText (session invoke acts s)).
Proof.
  induction acts as [|a acts IH]; intros s Hlen Hs; [exact Hs|].
  rewrite session_cons. apply IH; [exact Hlen|]. apply act_aligned; assumption.
Qed.

(** If the engine answers every call it accepts with a ciphertext as long as
    the text it was sent, then through any sequence of key presses and
    clears, calls failing or not, the panel always holds exactly as many
    characters as the notepad. *)
Theorem panel_keeps_pace invoke acts :
  (forall call c, invoke call = Payload.Fulfilled c ->
     String.length c = String.length (Payload.text call)) ->
  String.length (App.encryptedText (session invoke acts App.initial))
    = String.length (App.originalText (session invoke acts App.initial)).
Proof.
  intros Hlen. apply session_aligned; [exact Hlen|reflexivity].
Qed.

Lemma panel_keeps_pace_witness :
  String.length
    (App.encryptedText
       (session echo [Press "a"; Press " "; ClearAll; Press "b"; Press "7"; Press "c"]
          App.initial))
  = String.length
      (App.originalText
         (session echo [Press "a"; Press " "; ClearAll; Press "b"; Press "7"; Press "c"]
            App.initial)).
Proof.
  apply (panel_keeps_pace echo).
  intros call c H. injection H as <-. reflexivity.
Defined.

Lemma render_prompt_iff text : Notepad.render text = Notepad.Prompt 15 <-> text = "".
Proof.
  destruct text; cbn; split; intros H; try reflexivity; discriminate H.
Qed.

Lemma render_waiting_iff text :
  EnigmaMachine.render text = EnigmaMachine.Waiting <-> text = "".
Proof.
  destruct text; cbn; split; intros H; try reflexivity; discriminate H.
Qed.

Lemma length_zero_iff (s : string) : String.length s = O <-> s = "".
Proof. destruct s; cbn; split; intros H; try reflexivity; discriminate H. Qed.

(** Under the same condition on the engine, the two components show their
    placeholders together: the notepad shows its prompt exactly when the
    panel shows its waiting notice. *)
Theorem placeholders_together invoke acts :
  (forall call c, invoke call = Payload.Fulfilled c ->
     String.length c = String.length (Payload.text call)) ->
  Notepad.render (App.originalText (session invoke acts App.initial))
    = Notepad.Prompt 15 <->
  EnigmaMachine.render (App.encryptedText (session invoke acts App.initial))
    = EnigmaMachine.Waiting.
Proof.
  intros Hlen.
  pose proof (session_aligned invoke acts App.initial Hlen eq_refl) as H.
  rewrite render_prompt_iff, render_waiting_iff, <- !length_zero_iff, H.
  reflexivity.
Qed.

Lemma placeholders_together_witness :
  Notepad.render
    (App.originalText (session echo [Press "a"; ClearAll] App.initial))
    = Notepad.Prompt 15 <->
  EnigmaMachine.render
    (App.encryptedText (session echo [Press "a"; ClearAll] App.initial))
    = EnigmaMachine.Waiting.
Proof.
  apply (placeholders_together echo).
  intros call c H. injection H as <-. reflexivity.
Defined.

(** ** The virtual keyboard *)

Lemma key_on_board c :
  Js.isUpper c = true ->
  existsb (String.eqb (String c "")) (List.concat App.keyboardRows) = true.
Proof. each_char c; vm_compute; intros H; try reflexivity; discriminate H. Qed.

Lemma in_concat_nth {A} (x : A) (ll : list (list A)) :
  In x (List.concat ll) -> exists row col, nth_error (nth row ll []) col = Some x.
Proof.
  intros H. apply in_concat in H. destruct H as [l [Hl Hx]].
  destruct (In_nth _ _ [] Hl) as [row [_ Hrow]].
  destruct (In_nth_error _ _ Hx) as [col Hcol].
  exists row, col. rewrite Hrow. exact Hcol.
Qed.

Lemma nth_in_concat {A} (x : A) (ll : list (list A)) row col :
  nth_error (nth row ll []) col = Some x -> In x (List.concat ll).
Proof.
  intros H. apply nth_error_In in H. apply in_concat.
  exists (nth row ll []). split; [|exact H].
  destruct (Nat.lt_ge_cases row (List.length ll)) as [Hr|Hr].
  - apply nth_In, Hr.
  - rewrite nth_overflow in H by exact Hr. destruct H.
Qed.

Lemma key_caps :
  forallb (fun key => match key with
                      | String c EmptyString => Js.isUpper c
                      | _ => false
                      end) (List.concat App.keyboardRows) = true.
Proof. reflexivity. Qed.

(** The virtual keyboard is a full, duplicate-free alphabet wired like the
    physical one: every letter A to Z has a button, every button carries one
    upper-case letter, no letter has two buttons, and clicking a button does
    exactly what pressing that letter on the physical keyboard does. *)
Theorem virtual_keyboard_complete :
  (forall c, Js.isUpper c = true ->
     exists row col,
       nth_error (nth row App.keyboardRows []) col = Some (String c "") /\
       forall s, App.onClick (App.KeyButton row col) s
                 = App.handlePhysicalKeyPress (String c "") s) /\
  (forall row col key,
     nth_error (nth row App.keyboardRows []) col = Some key ->
     exists c, Js.isUpper c = true /\ key = String c "") /\
  NoDup (List.concat App.keyboardRows) /\
  List.length (List.concat App.keyboardRows) = 26%nat.
Proof.
  split; [|split; [|split]].
  - intros c Hc. pose proof (key_on_board c Hc) as H.
    apply existsb_exists in H. destruct H as [key [Hin Heq]].
    apply String.eqb_eq in Heq. subst key.
    destruct (in_concat_nth _ _ Hin) as [row [col Hn]].
    exists row, col. split; [exact Hn|]. intros s.
    cbn [App.onClick]. rewrite Hn. reflexivity.
  - intros row col key H. apply nth_in_concat in H.
    pose proof key_caps as Hk. rewrite forallb_forall in Hk.
    specialize (Hk key H). destruct key as [|c [|b rest]]; try discriminate.
    exists c. split; [exact Hk|reflexivity].
  - cbn [List.concat App.keyboardRows app].
    repeat (constructor; [cbn [In]; intuition discriminate|]). constructor.
  - reflexivity.
Qed.

(** ** The notepad sheet *)

Lemma splitFrom_nonempty text cur : Notepad.splitFrom text cur <> [].
Proof.
  revert cur. induction text as [|c text IH]; intros cur; cbn [Notepad.splitFrom].
  - discriminate.
  - destruct (Js.code c =? 10); [discriminate|apply IH].
Qed.

Lemma joinLines_cons l rest :
  rest <> [] -> joinLines (l :: rest) = l ++ String (Js.chr 10) (joinLines rest).
Proof. destruct rest; [contradiction|reflexivity]. Qed.

Lemma line_break_char c : (Js.code c =? 10) = true -> c = Js.chr 10.
Proof. intros H. apply Z.eqb_eq in H. rewrite <- H. symmetry. apply chr_code. Qed.

Lemma splitFrom_join text : forall cur,
  joinLines (Notepad.splitFrom text cur) = cur ++ text.
Proof.
  induction text as [|c text IH]; intros cur; cbn [Notepad.splitFrom].
  - cbn. symmetry. apply append_empty.
  - destruct (Js.code c =? 10) eqn:E.
    + rewrite joinLines_cons by apply splitFrom_nonempty.
      rewrite IH, (line_break_char _ E). reflexivity.
    + rewrite IH, append_assoc. reflexivity.
Qed.

Lemma splitFrom_length text : forall cur,
  List.length (Notepad.splitFrom text cur) = S (lineBreaks text).
Proof.
  induction text as [|c text IH]; intros cur; cbn [Notepad.splitFrom lineBreaks].
  - reflexivity.
  - destruct (Js.code c =? 10); [cbn [List.length]; rewrite IH; reflexivity|apply IH].
Qed.

Lemma oneLine_append a b : oneLine (a ++ b) = oneLine a && oneLine b.
Proof.
  induction a as [|c a IH]; [reflexivity|]. cbn. rewrite IH, andb_assoc. reflexivity.
Qed.

Lemma splitFrom_oneLine text : forall cur,
  oneLine cur = true ->
  Forall (fun line => oneLine line = true) (Notepad.splitFrom text cur).
Proof.
  induction text as [|c text IH]; intros cur Hc; cbn [Notepad.splitFrom].
  - constructor; [exact Hc|constructor].
  - destruct (Js.code c =? 10) eqn:E.
    + constructor; [exact Hc|]. apply IH. reflexivity.
    + apply IH. rewrite oneLine_append, Hc. cbn. rewrite E. reflexivity.
Qed.

Lemma lineContent_nonempty line : Notepad.lineContent line <> "".
Proof. destruct line; cbn; discriminate. Qed.

(** A text that is not empty is laid out on one row per line, one more than
    it has line breaks; the lines are the text cut at its line breaks, so
    that joining them with line breaks gives the text back and none holds a
    line break; and no row is rendered empty, an empty line being shown as a
    no-break space. *)
Theorem notepad_rows text :
  text <> "" ->
  exists rows,
    Notepad.render text = Notepad.Lines rows /\
    rows = map Notepad.lineContent (Notepad.split text) /\
    List.length rows = S (lineBreaks text) /\
    Forall (fun row => row <> "") rows /\
    joinLines (Notepad.split text) = text /\
    Forall (fun line => oneLine line = true) (Notepad.split text).
Proof.
  intros Hne. exists (map Notepad.lineContent (Notepad.split text)).
  split; [destruct text; [contradiction|reflexivity]|].
  split; [reflexivity|]. unfold Notepad.split.
  split; [rewrite length_map; apply splitFrom_length|].
  split; [apply Forall_map, Forall_forall; intros; apply lineContent_nonempty|].
  split; [apply splitFrom_join|apply splitFrom_oneLine; reflexivity].
Qed.

Lemma notepad_rows_witness :
  exists rows,
    Notepad.render ("ab" ++ String (Js.chr 10) (String (Js.chr 10) "c"))
      = Notepad.Lines rows /\
    rows = ["ab"; Notepad.nbsp; "c"].
Proof.
  destruct (notepad_rows ("ab" ++ String (Js.chr 10) (String (Js.chr 10) "c")))
    as (rows & Hr & Hm & _).
  - discriminate.
  - exists rows. split; [exact Hr|]. rewrite Hm. reflexivity.
Defined.

Lemma typedText_oneLine t : typedText t = true -> oneLine t = true.
Proof.
  induction t as [|c t IH]; [reflexivity|]. cbn [typedText oneLine]. intros H.
  apply andb_true_iff in H. destruct H as [Hc Ht]. rewrite IH by exact Ht.
  rewrite andb_true_r. apply negb_true_iff, Z.eqb_neq. intros E.
  unfold Js.isLower in Hc. rewrite E in Hc. discriminate Hc.
Qed.

Lemma splitFrom_single text : forall cur,
  oneLine text = true -> Notepad.splitFrom text cur = [cur ++ text].
Proof.
  induction text as [|c text IH]; intros cur H; cbn [Notepad.splitFrom].
  - rewrite append_empty. reflexivity.
  - cbn [oneLine] in H. apply andb_true_iff in H. destruct H as [Hc Ht].
    apply negb_true_iff in Hc. rewrite Hc, IH by exact Ht.
    rewrite append_assoc. reflexivity.
Qed.

(** Whatever is clicked or typed, the notepad never shows more than one row:
    it shows its prompt over 15 blank rows while nothing is typed, and
    otherwise a single row holding the whole plaintext, since no key can
    enter a line break. *)
Theorem notepad_single_row invoke es :
  Notepad.render (App.originalText (App.run invoke es App.initial)) =
    match App.originalText (App.run invoke es App.initial) with
    | EmptyString => Notepad.Prompt 15
    | String c rest => Notepad.Lines [String c rest]
    end.
Proof.
  pose proof (run_typed invoke es App.initial eq_refl) as H.
  apply typedText_oneLine in H.
  destruct (App.originalText (App.run invoke es App.initial)) as [|c rest];
    [reflexivity|].
  unfold Notepad.render, Notepad.split. rewrite (splitFrom_single _ _ H).
  reflexivity.
Qed.
